(** * obsidian-push: the transform-and-write pipeline

    A shallow embedding of [src/push.ts] (formatTimestamp,
    transformContent, pushSingleFile, pushMultiple) and of [main.ts] (the
    pull side: computeTargetFilePath, pullFile; the push side: pushFile,
    pushFiles, renderSuccessMessage; the batch commands), together with
    the pieces of the JavaScript and Node.js runtime they call: string
    primitives, the regular expressions that occur in the source,
    [path.posix] and a small file system.

    Strings are sequences of 8-bit characters (the UTF-8 encoding of the
    text), so [Buffer.byteLength(s, "utf8")] is the length of the string.
    The file system is a finite map from path strings to nodes; a path names
    at most one node and two different strings name different nodes. *)

From Stdlib Require Import Ascii DecimalString DecimalNat.
From stdpp Require Import gmap strings list.

Local Open Scope char_scope.
Local Open Scope stdpp_scope.

(** ** JavaScript strings *)

Module js.

(** The line feed, written [\n] in the source. *)
Definition nl : string := String "010" "".

(** [s.length] is [String.length s]; [a + b] is [a +:+ b]. *)

(** [s.slice(0, n)] for [0 <= n]. *)
Fixpoint slice0 (n : nat) (s : string) : string :=
  match n, s with
  | S k, String c s' => String c (slice0 k s')
  | _, _ => ""
  end.

(** [String(n)] and the template hole [${n}] for a natural number [n]. *)
Definition String_of_nat (n : nat) : string :=
  NilEmpty.string_of_uint (Nat.to_uint n).

Fixpoint zeros (k : nat) : string :=
  match k with
  | 0 => ""
  | S k' => String "0" (zeros k')
  end.

(** [s.padStart(l, "0")]. *)
Definition padStart0 (l : nat) (s : string) : string :=
  zeros (l - String.length s) +:+ s.

(** JavaScript truthiness of a string: [""] is falsy. *)
Definition truthy (s : string) : bool :=
  match s with
  | "" => false
  | String _ _ => true
  end.

(** Truthiness of an optional string: [undefined] and [""] are falsy. *)
Definition truthy_opt (o : option string) : bool :=
  match o with
  | Some s => truthy s
  | None => false
  end.

End js.

(** ** Regular expressions

  A backtracking matcher for the constructs that occur in the source:
  one-character atoms (a literal, [[^.]], [[\s\S]]), concatenation, the
  lazy star [*?] and the greedy plus [+] over an atom, the greedy option
  [?], the end assertion [$] and the empty pattern.  The matcher is written in
  continuation-passing style, as the ECMAScript specification defines
  matching: [run r s k] matches [r] at the front of [s] and hands the rest
  to [k], backtracking into [r] when [k] fails. *)

Module regex.

Inductive pattern : Type :=
| Atom (p : ascii → bool)
| Seq (r1 r2 : pattern)
| LazyStar (p : ascii → bool)
| GreedyPlus (p : ascii → bool)
| Opt (r : pattern)
| Eos
| Eps.

Definition cont : Type := string → option string.

(** [p*?]: try the continuation first, consume one more character only
    when it fails. *)
Fixpoint lazy_star (p : ascii → bool) (s : string) (k : cont) : option string :=
  match k s with
  | Some rest => Some rest
  | None =>
      match s with
      | String c s' => if p c then lazy_star p s' k else None
      | "" => None
      end
  end.

(** [p*]: consume as many characters as possible, give them back one by
    one while the continuation fails. *)
Fixpoint greedy_star (p : ascii → bool) (s : string) (k : cont) : option string :=
  match s with
  | String c s' =>
      if p c then
        match greedy_star p s' k with
        | Some rest => Some rest
        | None => k s
        end
      else k s
  | "" => k s
  end.

Fixpoint run (r : pattern) (s : string) (k : cont) : option string :=
  match r with
  | Atom p =>
      match s with
      | String c s' => if p c then k s' else None
      | "" => None
      end
  | Seq r1 r2 => run r1 s (λ s1, run r2 s1 k)
  | LazyStar p => lazy_star p s k
  | GreedyPlus p =>
      match s with
      | String c s' => if p c then greedy_star p s' k else None
      | "" => None
      end
  | Opt r1 =>
      match run r1 s k with
      | Some rest => Some rest
      | None => k s
      end
  | Eos =>
      match s with
      | "" => k s
      | String _ _ => None
      end
  | Eps => k s
  end.

(** A match of [r] at the front of [s]: what follows the match. *)
Definition match_here (r : pattern) (s : string) : option string :=
  run r s Some.

(** The leftmost match of [r] in [s]: the text before it and the text
    after it. *)
Fixpoint search (r : pattern) (s : string) : option (string * string) :=
  match match_here r s with
  | Some rest => Some ("", rest)
  | None =>
      match s with
      | String c s' =>
          match search r s' with
          | Some (pre, rest) => Some (String c pre, rest)
          | None => None
          end
      | "" => None
      end
  end.

(** A regular expression literal: a leading [^] (without the [m] flag it
    anchors the match at index 0), the body and the [g] flag. *)
Record RegExp : Type := mkRegExp {
  anchored : bool;
  body : pattern;
  global : bool
}.

(** [re.exec(s)], reduced to the text around the match. *)
Definition exec (re : RegExp) (s : string) : option (string * string) :=
  if anchored re then
    match match_here (body re) s with
    | Some rest => Some ("", rest)
    | None => None
    end
  else search (body re) s.

(** [re.test(s)]. *)
Definition test (re : RegExp) (s : string) : bool :=
  match exec re s with
  | Some _ => true
  | None => false
  end.

(** Replacement of every match, from left to right; [skip] characters of
    the current match are still to be dropped.  After an empty match the
    scan moves one character on. *)
Fixpoint replace_all_from (r : pattern) (rep : string) (skip : nat) (s : string) : string :=
  match s with
  | "" =>
      match skip, match_here r "" with
      | 0, Some _ => rep
      | _, _ => ""
      end
  | String c s' =>
      match skip with
      | S k => replace_all_from r rep k s'
      | 0 =>
          match match_here r s with
          | Some rest =>
              let n := String.length s - String.length rest in
              match n with
              | 0 => rep +:+ String c (replace_all_from r rep 0 s')
              | S k => rep +:+ replace_all_from r rep k s'
              end
          | None => String c (replace_all_from r rep 0 s')
          end
      end
  end.

(** [s.replace(re, rep)] for a replacement text without [$] patterns. *)
Definition replace (re : RegExp) (rep : string) (s : string) : string :=
  if global re then replace_all_from (body re) rep 0 s
  else
    match exec re s with
    | Some (pre, rest) => pre +:+ rep +:+ rest
    | None => s
    end.

(** Atoms. *)
Definition chr (c : ascii) : pattern := Atom (Ascii.eqb c).
Definition not_chr (c : ascii) : pattern := Atom (λ x, negb (Ascii.eqb c x)).
Definition any : ascii → bool := λ _, true.

(** A literal text. *)
Fixpoint lit (s : string) (k : pattern) : pattern :=
  match s with
  | "" => k
  | String c s' => Seq (chr c) (lit s' k)
  end.

End regex.

(** ** [path.posix] of Node.js

  The functions of Node's [path] module that the source calls, for POSIX
  paths, at the level of what they return. *)

Module path.

Definition sep : ascii := "/".
Definition is_sep (c : ascii) : bool := Ascii.eqb c sep.
Definition dot : ascii := ".".
Definition is_dot (c : ascii) : bool := Ascii.eqb c dot.

Definition chars : string → list ascii := String.list_ascii_of_string.
Definition text : list ascii → string := String.string_of_list_ascii.

Fixpoint drop_while (p : ascii → bool) (l : list ascii) : list ascii :=
  match l with
  | c :: l' => if p c then drop_while p l' else l
  | [] => []
  end.

Fixpoint take_while (p : ascii → bool) (l : list ascii) : list ascii :=
  match l with
  | c :: l' => if p c then c :: take_while p l' else []
  | [] => []
  end.

(** The last segment of a path, as a list of characters: trailing
    separators are skipped, then everything back to the previous separator
    is taken. *)
Definition last_segment (p : string) : list ascii :=
  rev (take_while (λ c, negb (is_sep c)) (drop_while is_sep (rev (chars p)))).

(** [path.basename(p)]. *)
Definition basename (p : string) : string := text (last_segment p).

(** [path.extname(p)]: from the last dot of the last segment to its end;
    empty when there is no dot, when the only dot is the first character
    of the segment, and when the segment is [..]. *)
Definition extname (p : string) : string :=
  let seg := last_segment p in
  let ext := rev (take_while (λ c, negb (is_dot c)) (rev seg)) in
  let stem := length seg - length ext in
  if (stem =? 0)%nat then ""                      (* no dot in the segment *)
  else if (stem =? 1)%nat then ""                 (* the dot starts the segment *)
  else if bool_decide (seg = [dot; dot]) then ""
  else text (dot :: ext).

(** [path.dirname(p)]. *)
Definition dirname (p : string) : string :=
  match chars p with
  | [] => "."
  | c0 :: tl =>
      (* scan from the end down to index 1 *)
      let r := drop_while (λ c, negb (is_sep c))
                 (drop_while is_sep (rev tl)) in
      (* [r] is the reversed text of indices 1..end, [end] excluded, when
         a separator was found before a non-separator *)
      match r with
      | [] => if is_sep c0 then "/" else "."
      | _ :: r' =>
          if is_sep c0 && bool_decide (r' = []) then "//"
          else text (c0 :: rev r')
      end
  end.

(** The segments of a path: the texts between separators. *)
Fixpoint split_from (cur : list ascii) (l : list ascii) : list (list ascii) :=
  match l with
  | [] => [rev cur]
  | c :: l' => if is_sep c then rev cur :: split_from [] l'
               else split_from (c :: cur) l'
  end.

Definition segments (p : string) : list (list ascii) := split_from [] (chars p).

(** One step of [normalizeString]: the result so far is a stack of
    segments, last segment first. *)
Definition normalize_step (allowAboveRoot : bool)
    (res : list (list ascii)) (seg : list ascii) : list (list ascii) :=
  if bool_decide (seg = []) || bool_decide (seg = [dot]) then res
  else if bool_decide (seg = [dot; dot]) then
    match res with
    | top :: below =>
        if bool_decide (top = [dot; dot]) then
          (if allowAboveRoot then seg :: res else res)
        else below
    | [] => if allowAboveRoot then [seg] else []
    end
  else seg :: res.

Fixpoint unsplit (segs : list (list ascii)) : list ascii :=
  match segs with
  | [] => []
  | [s] => s
  | s :: rest => s ++ sep :: unsplit rest
  end.

Definition normalizeString (p : string) (allowAboveRoot : bool) : list ascii :=
  unsplit (rev (fold_left (normalize_step allowAboveRoot) (segments p) [])).

Definition starts_with_sep (p : string) : bool :=
  match p with
  | String c _ => is_sep c
  | "" => false
  end.

Definition ends_with_sep (p : string) : bool :=
  match rev (chars p) with
  | c :: _ => is_sep c
  | [] => false
  end.

(** [path.normalize(p)]. *)
Definition normalize (p : string) : string :=
  match p with
  | "" => "."
  | _ =>
      let isAbsolute := starts_with_sep p in
      let trailingSeparator := ends_with_sep p in
      let body := normalizeString p (negb isAbsolute) in
      match body with
      | [] => if isAbsolute then "/" else if trailingSeparator then "./" else "."
      | _ =>
          let body' := if trailingSeparator then body ++ [sep] else body in
          text (if isAbsolute then sep :: body' else body')
      end
  end.

(** [path.join(a, b)]: the non-empty arguments joined with a separator,
    then normalized. *)
Definition join (a b : string) : string :=
  match a, b with
  | "", "" => "."
  | "", _ => normalize b
  | _, "" => normalize a
  | _, _ => normalize (a +:+ "/" +:+ b)
  end.

End path.

(** ** The host: file system, vault, clock

  The world a push or a pull runs in.  [seen] records every state the
  file system passes through, latest first: these are the states another
  process reading the disk can observe.

  [disk_of] is the file system as the calls of [fs] and [fs.promises] see
  it, and [vault_of] is the content of the notes as [vault.read] and
  [vault.modify] see it.  The two are kept as two maps and nothing relates
  them, although the notes are files of the same file system and the
  target directory may lie inside the vault: what the write of a push
  does to the notes, and what a pull does to the files, is outside this
  model. *)

Module host.

Inductive node : Type :=
| File (content : string)
| Dir.

Abbreviation disk := (gmap string node).

(** A JavaScript exception: a [PushError], any other [Error] (a Node.js
    system error carries a [code]), or a thrown value that is no [Error]. *)
Inductive exn : Type :=
| PushError (message : string) (code : option string)
| Error (message : string) (code : option string)
| Thrown.

(** What a call of the host can fail with: an [Error] of the runtime, or
    a thrown value that is no [Error].  A [PushError] is only ever thrown
    by the plugin itself. *)
Inductive host_exn : Type :=
| HostError (message : string) (code : option string)
| HostThrown.

Definition raised (e : host_exn) : exn :=
  match e with
  | HostError message code => Error message code
  | HostThrown => Thrown
  end.

Record world : Type := mkWorld {
  disk_of : disk;
  vault_of : gmap string string;
  seen : list disk;
  notices : list string
}.

(** [new Date()], read through its getters. *)
Record Date : Type := mkDate {
  getFullYear : nat;
  getMonth : nat;
  getDate : nat;
  getHours : nat;
  getMinutes : nat;
  getSeconds : nat
}.

(** What the operating system and the vault do during one operation: the
    time on the clock, and for each call whether it fails and with what.
    [mkdir_fault = Some (k, e)]: [k] directories are created, then [e] is
    thrown.  [writeFile_fault = Some (None, e)]: nothing is written;
    [Some (Some k, e)]: [k] characters are written, then [e] is thrown. *)
Record behaviour : Type := mkBehaviour {
  clock : Date;
  vault_read_fault : option host_exn;
  mkdir_fault : option (nat * host_exn);
  writeFile_fault : option (option nat * host_exn);
  rename_fault : option host_exn;
  unlink_fault : option host_exn;
  readFile_fault : option host_exn;
  modify_fault : option host_exn
}.

(** The result of running a computation: a value, an exception, or no
    result because a loop ran out of fuel. *)
Inductive outcome (A : Type) : Type :=
| Ok (a : A)
| Throw (e : exn)
| Diverge.
Global Arguments Ok {A} a.
Global Arguments Throw {A} e.
Global Arguments Diverge {A}.

Definition M (A : Type) : Type := world → outcome A * world.

Definition ret {A : Type} (a : A) : M A := λ w, (Ok a, w).

(** [const x = await m; k x]: an exception or a divergence of [m] ends
    the computation. *)
Definition bind {A B : Type} (m : M A) (k : A → M B) : M B := λ w,
  match m w with
  | (Ok a, w') => k a w'
  | (Throw e, w') => (Throw e, w')
  | (Diverge, w') => (Diverge, w')
  end.

Declare Scope M_scope.
Delimit Scope M_scope with M.
Bind Scope M_scope with M.
Notation "x ← y ; z" := (bind y (λ x, z)) (only parsing) : M_scope.
Notation "y ;; z" := (bind y (λ _, z)) (only parsing) : M_scope.

Definition throw {A : Type} (e : exn) : M A := λ w, (Throw e, w).
Definition diverge {A : Type} : M A := λ w, (Diverge, w).

(** [try { m } catch (err) { h err }]. *)
Definition try_catch {A : Type} (m : M A) (h : exn → M A) : M A := λ w,
  match m w with
  | (Throw e, w') => h e w'
  | r => r
  end.

(** The disk moves through the states [mid] (in order) to [d]. *)
Definition observe (mid : list disk) (d : disk) (w : world) : world :=
  {| disk_of := d; vault_of := vault_of w;
     seen := d :: rev mid ++ seen w; notices := notices w |}.

(** A system error of Node.js: the message is the code, a description and
    the call that failed, as in [ENOENT: no such file or directory, open
    '/a'], and the code is kept in the field [code]. *)
Definition system_error (code description call : string) : exn :=
  Error (code +:+ ": " +:+ description +:+ ", " +:+ call) (Some code).

Definition quoted (p : string) : string := "'" +:+ p +:+ "'".

(** [fs.existsSync(p)]: true for a file and for a directory. *)
Definition exists_in (d : disk) (p : string) : bool :=
  bool_decide (is_Some (d !! p)).

Definition existsSync (p : string) : M bool := λ w,
  (Ok (exists_in (disk_of w) p), w).

(** What a reader of the path [p] gets: the content of the file there. *)
Definition content_at (d : disk) (p : string) : option string :=
  match d !! p with
  | Some (File c) => Some c
  | _ => None
  end.

(** The directories [mkdir(dir, {recursive: true})] visits: every prefix
    of [dir] that ends before a separator, outermost first, then [dir]. *)
Fixpoint cuts (done : list ascii) (l : list ascii) : list string :=
  match l with
  | [] => [path.text (rev done)]
  | c :: l' =>
      if path.is_sep c then path.text (rev done) :: cuts (c :: done) l'
      else cuts (c :: done) l'
  end.

Definition ends_in_sep (p : string) : bool := path.ends_with_sep p.

Definition ancestors (dir : string) : list string :=
  filter (λ p, js.truthy p && negb (ends_in_sep p) = true)
         (cuts [] (path.chars dir)).

Definition make_dir (p : string) (d : disk) : disk :=
  match d !! p with
  | None => <[p := Dir]> d
  | Some _ => d
  end.

(** The states of the disk while the directories [ps] are created. *)
Fixpoint mkdir_states (ps : list string) (d : disk) : list disk :=
  match ps with
  | [] => []
  | p :: ps' => make_dir p d :: mkdir_states ps' (make_dir p d)
  end.

Definition is_file (d : disk) (p : string) : bool :=
  match d !! p with
  | Some (File _) => true
  | _ => false
  end.

(** [fs.promises.mkdir(dir, { recursive: true })]: with a file where a
    directory is needed nothing is created; the error is [EEXIST] when the
    file is at [dir] itself and [ENOTDIR] when it is at a directory above
    it. *)
Definition mkdir (fault : option (nat * host_exn)) (dir : string) : M unit := λ w,
  let d := disk_of w in
  let todo := ancestors dir in
  match fault with
  | Some (k, e) =>
      let sts := mkdir_states (take k todo) d in
      (Throw (raised e), observe sts (List.last sts d) w)
  | None =>
      if existsb (is_file d) todo then
        (Throw (if is_file d dir
                then system_error "EEXIST" "file already exists"
                       ("mkdir " +:+ quoted dir)
                else system_error "ENOTDIR" "not a directory"
                       ("mkdir " +:+ quoted dir)), w)
      else
        let sts := mkdir_states todo d in
        (Ok (), observe sts (List.last sts d) w)
  end.

(** The states of the disk while the first [n] characters of [content]
    are written to [p]: the file is created empty, then it grows. *)
Definition write_states (p content : string) (n : nat) (d : disk) : list disk :=
  map (λ j, <[p := File (js.slice0 j content)]> d) (seq 0 (S n)).

(** [fs.promises.writeFile(p, content, "utf8")]. *)
Definition writeFile (fault : option (option nat * host_exn))
    (p content : string) : M unit := λ w,
  let d := disk_of w in
  match d !! p with
  | Some Dir =>
      (Throw (system_error "EISDIR" "illegal operation on a directory"
                ("open " +:+ quoted p)), w)
  | _ =>
      match fault with
      | Some (None, e) => (Throw (raised e), w)
      | Some (Some k, e) =>
          let k' := k `min` String.length content in
          (Throw (raised e),
           observe (write_states p content k' d)
                   (<[p := File (js.slice0 k' content)]> d) w)
      | None =>
          (Ok (),
           observe (write_states p content (String.length content) d)
                   (<[p := File content]> d) w)
      end
  end.

(** [fs.promises.rename(from, to)]: one step of the file system. *)
Definition rename (fault : option host_exn) (from to : string) : M unit := λ w,
  let d := disk_of w in
  match fault with
  | Some e => (Throw (raised e), w)
  | None =>
      match d !! from with
      | None =>
          (Throw (system_error "ENOENT" "no such file or directory"
                    ("rename " +:+ quoted from +:+ " -> " +:+ quoted to)), w)
      | Some n =>
          match n, d !! to with
          | File _, Some Dir =>
              (Throw (system_error "EISDIR" "illegal operation on a directory"
                        ("rename " +:+ quoted from +:+ " -> " +:+ quoted to)), w)
          | Dir, Some (File _) =>
              (Throw (system_error "ENOTDIR" "not a directory"
                        ("rename " +:+ quoted from +:+ " -> " +:+ quoted to)), w)
          | _, _ => (Ok (), observe [] (<[to := n]> (delete from d)) w)
          end
      end
  end.

(** [fs.promises.unlink(p)]. *)
Definition unlink (fault : option host_exn) (p : string) : M unit := λ w,
  let d := disk_of w in
  match fault with
  | Some e => (Throw (raised e), w)
  | None =>
      match d !! p with
      | Some (File _) => (Ok (), observe [] (delete p d) w)
      | Some Dir =>
          (Throw (system_error "EISDIR" "illegal operation on a directory"
                    ("unlink " +:+ quoted p)), w)
      | None =>
          (Throw (system_error "ENOENT" "no such file or directory"
                    ("unlink " +:+ quoted p)), w)
      end
  end.

(** [fs.promises.readFile(p, "utf8")]. *)
Definition readFile (fault : option host_exn) (p : string) : M string := λ w,
  match fault with
  | Some e => (Throw (raised e), w)
  | None =>
      match disk_of w !! p with
      | Some (File c) => (Ok c, w)
      | Some Dir =>
          (Throw (system_error "EISDIR" "illegal operation on a directory" "read"), w)
      | None =>
          (Throw (system_error "ENOENT" "no such file or directory"
                    ("open " +:+ quoted p)), w)
      end
  end.

(** [vault.read(file)], by the path of the file. *)
Definition vault_read (fault : option host_exn) (p : string) : M string := λ w,
  match fault with
  | Some e => (Throw (raised e), w)
  | None =>
      match vault_of w !! p with
      | Some c => (Ok c, w)
      | None => (Throw (Error "File not found" None), w)
      end
  end.

(** [vault.modify(file, content)]. *)
Definition vault_modify (fault : option host_exn) (p content : string) : M unit := λ w,
  match fault with
  | Some e => (Throw (raised e), w)
  | None =>
      (Ok (), {| disk_of := disk_of w; vault_of := <[p := content]> (vault_of w);
                 seen := seen w; notices := notices w |})
  end.

(** [new Notice(msg)]. *)
Definition Notice (msg : string) : M unit := λ w,
  (Ok (), {| disk_of := disk_of w; vault_of := vault_of w;
             seen := seen w; notices := msg :: notices w |}).

End host.

(** ** [src/push.ts] *)

Module push.
Import js regex host.
Local Open Scope M_scope.

(** A vault file; only its path is used. *)
Record TFile : Type := mkTFile { file_path : string }.

Record TransformOptions : Type := mkTransformOptions {
  sanitizeFrontmatter : bool;
  addTimestampHeader : bool;
  timestampFormat : string;
  forceExtension : option string
}.

Record PushContext : Type := mkPushContext {
  replicateFolders : bool;
  overwriteExisting : bool;
  targetBase : string
}.

Record PushResult : Type := mkPushResult {
  source : string;
  finalPath : string;
  bytes : nat;
  transformed_flag : bool
}.

Record PushFailure : Type := mkPushFailure {
  file : string;
  error : string;
  code : option string
}.

Record PushBatchResult : Type := mkPushBatchResult {
  successes : list PushResult;
  failures : list PushFailure
}.

(** [/YYYY/g] and the like. *)
Definition token (t : string) : RegExp := mkRegExp false (lit t Eps) true.

Definition pad (n : nat) : string := padStart0 2 (String_of_nat n).

Definition formatTimestamp (fmt : string) (d : Date) : string :=
  replace (token "ss") (pad (getSeconds d))
    (replace (token "mm") (pad (getMinutes d))
      (replace (token "HH") (pad (getHours d))
        (replace (token "DD") (pad (getDate d))
          (replace (token "MM") (pad (getMonth d + 1))
            (replace (token "YYYY") (String_of_nat (getFullYear d)) fmt))))).

(** [/^---\n[\s\S]*?\n---\n?/] *)
Definition FRONTMATTER_RE : RegExp :=
  mkRegExp true
    (lit "---" (Seq (lit nl (LazyStar any))
                    (lit nl (lit "---" (Opt (lit nl Eps))))))
    false.

Record Transformed : Type := mkTransformed {
  content : string;
  transformed : bool
}.

(** [transformContent(raw, opts)]; [now] is the value of [new Date()]
    that [formatTimestamp] takes as the default of its second argument. *)
Definition transformContent (now : Date) (raw : string)
    (opts : TransformOptions) : Transformed :=
  let content := raw in
  let transformed := false in
  let '(content, transformed) :=
    if sanitizeFrontmatter opts && test FRONTMATTER_RE content
    then (replace FRONTMATTER_RE "" content, true)
    else (content, transformed) in
  let '(content, transformed) :=
    if addTimestampHeader opts then
      let stamp :=
        formatTimestamp
          (if truthy (timestampFormat opts) then timestampFormat opts
           else "YYYY-MM-DD HH:mm") now in
      ("<!-- Pushed: " +:+ stamp +:+ " -->" +:+ nl +:+ content, true)
    else (content, transformed) in
  {| content := content; transformed := transformed |}.

(** [/\.[^.]+$/] *)
Definition EXTENSION_RE : RegExp :=
  mkRegExp false (Seq (chr ".") (Seq (GreedyPlus (λ c, negb (Ascii.eqb "." c))) Eos)) false.

(** The destination of a push, lines 93 to 103 of [pushSingleFile]. *)
Definition destPath (f : TFile) (ctx : PushContext) (tr : TransformOptions) : string :=
  let relativePath := file_path f in
  let relativePath :=
    if negb (replicateFolders ctx) then path.basename relativePath
    else relativePath in
  let relativePath :=
    match forceExtension tr with
    | Some ext =>
        if truthy ext then
          let baseNoExt := replace EXTENSION_RE "" relativePath in
          baseNoExt +:+ ext
        else relativePath
    | None => relativePath
    end in
  path.join (targetBase ctx) relativePath.

(** [`${b}-${i}${ext}`] *)
Definition candidate (b : string) (i : nat) (ext : string) : string :=
  b +:+ "-" +:+ String_of_nat i +:+ ext.

(** [while (fs.existsSync(`${b}-${i}${ext}`)) i++;] *)
Fixpoint suffix_loop (fuel : nat) (b ext : string) (i : nat) : M nat :=
  match fuel with
  | 0 => diverge
  | S fuel' =>
      taken ← existsSync (candidate b i ext);
      if taken then suffix_loop fuel' b ext (S i) else ret i
  end.

(** The path that is written, lines 106 to 114 of [pushSingleFile]. *)
Definition resolveFinalPath (fuel : nat) (ctx : PushContext) (destPath : string) : M string :=
  taken ← existsSync destPath;
  if negb (overwriteExisting ctx) && taken then
    let ext := path.extname destPath in
    let b := slice0 (String.length destPath - String.length ext) destPath in
    i ← suffix_loop fuel b ext 1;
    ret (candidate b i ext)
  else ret destPath.

Definition error_code (err : exn) : option string :=
  match err with
  | PushError _ c => c
  | Error _ c => c
  | Thrown => None
  end.

Definition write_error_message (code : option string) : string :=
  if bool_decide (code = Some "EACCES") || bool_decide (code = Some "EPERM")
  then "Permission denied writing destination"
  else if bool_decide (code = Some "ENOENT") then "Destination path not found"
  else "Failed to write file".

(** The [catch] block of [pushSingleFile], lines 119 to 136: the
    temporary file is removed if it is there, a failure of the removal is
    ignored, and a [PushError] is thrown. *)
Definition onWriteError (os : behaviour) (tmp finalPath : string) (err : exn) : M unit :=
  left_over ← existsSync tmp;
  (if left_over then try_catch (unlink (unlink_fault os) tmp) (λ _, ret ())
   else ret ());;
  let code := error_code err in
  let msg := write_error_message code in
  throw (PushError (msg +:+ ": " +:+ finalPath) code).

(** Lines 115 to 136 of [pushSingleFile]: the write through a temporary
    file. *)
Definition writeThroughTmp (os : behaviour) (finalPath content : string) : M unit :=
  let tmp := finalPath +:+ ".tmp" in
  try_catch
    (writeFile (writeFile_fault os) tmp content;;
     rename (rename_fault os) tmp finalPath)
    (onWriteError os tmp finalPath).

(** [pushSingleFile(vault, file, ctx, tr)]; the vault is the one of the
    world, [os] is what the host does during the call and [fuel] bounds
    the iterations of the collision loop. *)
Definition pushSingleFile (fuel : nat) (f : TFile) (ctx : PushContext)
    (tr : TransformOptions) (os : behaviour) : M PushResult :=
  raw ← vault_read (vault_read_fault os) (file_path f);
  let t := transformContent (clock os) raw tr in
  let destPath := destPath f ctx tr in
  let destDir := path.dirname destPath in
  mkdir (mkdir_fault os) destDir;;
  finalPath ← resolveFinalPath fuel ctx destPath;
  writeThroughTmp os finalPath (content t);;
  ret {| source := file_path f;
          finalPath := finalPath;
          bytes := String.length (content t);
          transformed_flag := transformed t |}.

Definition failure_of (f : TFile) (err : exn) : PushFailure :=
  match err with
  | PushError message c => {| file := file_path f; error := message; code := c |}
  | Error message _ => {| file := file_path f; error := message; code := None |}
  | Thrown => {| file := file_path f; error := "Unknown error"; code := None |}
  end.

(** The loop of [pushMultiple]; [os k] is what the host does during the
    push of the [k]-th remaining file. *)
Fixpoint pushLoop (fuel : nat) (files : list TFile) (ctx : PushContext)
    (tr : TransformOptions) (os : nat → behaviour)
    (successes : list PushResult) (failures : list PushFailure)
    : M PushBatchResult :=
  match files with
  | [] => ret {| successes := successes; failures := failures |}
  | f :: rest =>
      r ← try_catch
            (r ← pushSingleFile fuel f ctx tr (os 0);
             ret (inl r : PushResult + PushFailure))
            (λ err, ret (inr (failure_of f err)));
      match r with
      | inl r => pushLoop fuel rest ctx tr (λ k, os (S k)) (successes ++ [r]) failures
      | inr e => pushLoop fuel rest ctx tr (λ k, os (S k)) successes (failures ++ [e])
      end
  end.

(** [pushMultiple(vault, files, ctx, tr)]. *)
Definition pushMultiple (fuel : nat) (files : list TFile) (ctx : PushContext)
    (tr : TransformOptions) (os : nat → behaviour) : M PushBatchResult :=
  pushLoop fuel files ctx tr os [] [].

End push.

(** ** [main.ts]: the pull side of the plugin *)

Module plugin.
Import js regex host push.
Local Open Scope M_scope.

Record PushPluginSettings : Type := mkSettings {
  targetDir : string;
  settings_replicateFolders : bool;
  settings_overwriteExisting : bool;
  notifyOnSuccess : bool;
  settings_sanitizeFrontmatter : bool;
  settings_addTimestampHeader : bool;
  settings_timestampFormat : string;
  settings_forceExtension : string;
  successNoticeMessage : option string
}.

(** The plugin object: its settings and what [resolveTargetBase()]
    returns for them on this host ([null] when no target directory is
    configured). *)
Record ObsidianPushPlugin : Type := mkPlugin {
  settings : PushPluginSettings;
  resolveTargetBase : option string
}.

Definition buildTransformOptions (this : ObsidianPushPlugin) : TransformOptions :=
  {| sanitizeFrontmatter := settings_sanitizeFrontmatter (settings this);
     addTimestampHeader := settings_addTimestampHeader (settings this);
     timestampFormat := settings_timestampFormat (settings this);
     forceExtension :=
       if truthy (settings_forceExtension (settings this))
       then Some (settings_forceExtension (settings this))
       else None |}.

Definition buildPushContext (this : ObsidianPushPlugin) : option PushContext :=
  match resolveTargetBase this with
  | Some targetBase =>
      if truthy targetBase then
        Some {| replicateFolders := settings_replicateFolders (settings this);
                overwriteExisting := settings_overwriteExisting (settings this);
                targetBase := targetBase |}
      else None
  | None => None
  end.

Definition computeTargetFilePath (f : TFile) (ctx : PushContext)
    (tr : TransformOptions) : string :=
  let relative := file_path f in
  let relative :=
    if negb (replicateFolders ctx) then path.basename relative else relative in
  let relative :=
    match forceExtension tr with
    | Some ext =>
        if truthy ext then
          let baseNoExt := replace EXTENSION_RE "" relative in
          baseNoExt +:+ ext
        else relative
    | None => relative
    end in
  path.join (targetBase ctx) relative.

Definition applyPulledContent (os : behaviour) (f : TFile) (content : string) : M unit :=
  vault_modify (modify_fault os) (file_path f) content.

Definition handlePullError (err : exn) : M unit :=
  let msg :=
    match err with
    | PushError message _ => message
    | Error message _ => message
    | Thrown => "Pull failed"
    end in
  Notice msg.

(** The path probed when the forced extension finds nothing. *)
Definition originalPath (f : TFile) (ctx : PushContext) : string :=
  path.join (targetBase ctx)
    (if replicateFolders ctx then file_path f else path.basename (file_path f)).

Definition pullFile (this : ObsidianPushPlugin) (f : TFile) (os : behaviour) : M unit :=
  match buildPushContext this with
  | None => Notice "Pull: targetDir not configured"
  | Some ctx =>
      let tr := buildTransformOptions this in
      let targetPath := computeTargetFilePath f ctx tr in
      try_catch
        (found ← existsSync targetPath;
         if negb found then
           if truthy_opt (forceExtension tr) then
             found_original ← existsSync (originalPath f ctx);
             if found_original then
               content ← readFile (readFile_fault os) (originalPath f ctx);
               applyPulledContent os f content;;
               Notice "Pulled (fallback extension)"
             else Notice "Target file not found for pull"
           else Notice "Target file not found for pull"
         else
           content ← readFile (readFile_fault os) targetPath;
           applyPulledContent os f content;;
           Notice "Note pulled")
        handlePullError
  end.

End plugin.

(** ** Vocabulary of the statements *)

Import js regex host push plugin.
Local Open Scope M_scope.

Section vocabulary.
Implicit Types d st : disk.
Implicit Types w : world.
Implicit Types b ext : string.

(** *** Decimal numerals *)

Definition is_digit (c : ascii) : bool :=
  match c with
  | "0" | "1" | "2" | "3" | "4" | "5" | "6" | "7" | "8" | "9" => true
  | _ => false
  end%char.

Fixpoint all_digits (s : string) : bool :=
  match s with
  | "" => true
  | String c s' => is_digit c && all_digits s'
  end.

Fixpoint leading_digits (s : string) : string :=
  match s with
  | "" => ""
  | String c s' => if is_digit c then String c (leading_digits s') else ""
  end.

(** A text that does not go on with a digit. *)
Definition stops_digits (s : string) : Prop :=
  match s with
  | "" => True
  | String c _ => is_digit c = false
  end.

(** *** The disk *)

(** [j] is the first index from [i] on whose candidate is not on the disk. *)
Definition least_free d b ext (i j : nat) : Prop :=
  i ≤ j ∧ exists_in d (candidate b j ext) = false ∧
  ∀ k, i ≤ k < j → exists_in d (candidate b k ext) = true.

(** [st] is [d] except at the path [p]. *)
Definition agree_off (p : string) d st : Prop := ∀ q, q ≠ p → st !! q = d !! q.

(** [st] is [d] with directories added at some free paths among [ps]. *)
Definition only_new_dirs (ps : list string) d st : Prop :=
  ∀ q, st !! q = d !! q ∨ (q ∈ ps ∧ d !! q = None ∧ st !! q = Some Dir).

(** The trace of [w'] continues the trace of [w] with states that all
    satisfy [P], and so does the disk of [w']. *)
Definition through (P : disk → Prop) w w' : Prop :=
  vault_of w' = vault_of w ∧ notices w' = notices w ∧
  P (disk_of w') ∧ ∃ new, seen w' = new ++ seen w ∧ Forall P new.

(** The disk after a write of [content] to [final] through the temporary
    file. *)
Definition written (final content : string) d : disk :=
  <[final := File content]>
    (delete (final +:+ ".tmp") (<[final +:+ ".tmp" := File content]> d)).

(** *** A push *)

Definition is_push_error (e : exn) : Prop :=
  match e with
  | PushError _ _ => True
  | _ => False
  end.

(** The split of a destination that the collision loop uses. *)
Definition ext_of (dest : string) : string := path.extname dest.
Definition base_of (dest : string) : string :=
  slice0 (String.length dest - String.length (path.extname dest)) dest.

(** [p] is the path the collision resolver picks for [dest] on [d]. *)
Definition resolved d (ctx : PushContext) (dest p : string) : Prop :=
  if negb (overwriteExisting ctx) && exists_in d dest then
    ∃ i, least_free d (base_of dest) (ext_of dest) 1 i ∧
         p = candidate (base_of dest) i (ext_of dest)
  else p = dest.

(** The directories a push may create. *)
Definition dirs_of (f : TFile) (ctx : PushContext) (tr : TransformOptions) : list string :=
  ancestors (path.dirname (destPath f ctx tr)).

(** The elements of [l] whose flag is set, in the order of [l]. *)
Fixpoint pick {A : Type} (flags : list bool) (l : list A) : list A :=
  match flags, l with
  | keep :: flags', x :: l' => if keep then x :: pick flags' l' else pick flags' l'
  | _, _ => []
  end.

(** Successful pushes of [f], one after the other, and their results. *)
Inductive pushes (f : TFile) (ctx : PushContext) (tr : TransformOptions)
    : world → list PushResult → world → Prop :=
| pushes_nil w : pushes f ctx tr w [] w
| pushes_cons fuel os w r w1 rs w2 :
    pushSingleFile fuel f ctx tr os w = (Ok r, w1) →
    pushes f ctx tr w1 rs w2 →
    pushes f ctx tr w (r :: rs) w2.

(** The record [x] of the failure of the push of [f] with the exception
    [e]: the path of the file; the message of an [Error], and the code of a
    [PushError]. *)
Definition describes (f : TFile) (e : exn) (x : PushFailure) : Prop :=
  file x = file_path f ∧
  match e with
  | PushError message c => error x = message ∧ code x = c
  | Error message _ => error x = message ∧ code x = None
  | Thrown => error x = "Unknown error" ∧ code x = None
  end.

(** A batch, file by file: every push runs in the world that the one before
    it left; [ss] are the results of the pushes that returned and [fs] the
    records of the pushes that threw, each in the order of the files. *)
Inductive batch_run (ctx : PushContext) (tr : TransformOptions)
    : list TFile → (nat → behaviour) → world →
      list PushResult → list PushFailure → world → Prop :=
| batch_done os w : batch_run ctx tr [] os w [] [] w
| batch_pushed fuel f rest os w r w1 ss fs w2 :
    pushSingleFile fuel f ctx tr (os 0) w = (Ok r, w1) →
    batch_run ctx tr rest (λ k, os (S k)) w1 ss fs w2 →
    batch_run ctx tr (f :: rest) os w (r :: ss) fs w2
| batch_failed fuel f rest os w e w1 x ss fs w2 :
    pushSingleFile fuel f ctx tr (os 0) w = (Throw e, w1) →
    describes f e x →
    batch_run ctx tr rest (λ k, os (S k)) w1 ss fs w2 →
    batch_run ctx tr (f :: rest) os w ss (x :: fs) w2.

(** [base, base-1, base-2, ...] *)
Definition numbered (dest : string) (k : nat) : string :=
  match k with
  | 0 => dest
  | S _ => candidate (base_of dest) k (ext_of dest)
  end.

(** The first [k] numbered paths are on the disk and no other one is. *)
Definition filled d (dest : string) (k : nat) : Prop :=
  (∀ j, j < k → exists_in d (numbered dest j) = true) ∧
  (∀ j, k ≤ j → exists_in d (numbered dest j) = false).

(** The paths [ps] written so far are numbered paths of [dest], they are on
    the disk, and so is [dest] once something was written. *)
Definition kept d (dest : string) (ps : list string) : Prop :=
  Forall (λ p, exists_in d p = true ∧ ∃ k, p = numbered dest k) ps ∧
  (ps ≠ [] → exists_in d dest = true).

(** *** Patterns *)

(** [s] without the prefix [p], if it starts with [p]. *)
Fixpoint strip_prefix (p s : string) : option string :=
  match p with
  | "" => Some s
  | String a p' =>
      match s with
      | String b s' => if Ascii.eqb a b then strip_prefix p' s' else None
      | "" => None
      end
  end.

(** [s] without one line break at its front. *)
Definition strip_nl (s : string) : string :=
  match strip_prefix nl s with
  | Some s' => s'
  | None => s
  end.

(** What follows the first line break followed by three dashes in [t], a
    line break right after the dashes left out. *)
Fixpoint after_closing (t : string) : option string :=
  match strip_prefix (nl +:+ "---") t with
  | Some tail => Some (strip_nl tail)
  | None =>
      match t with
      | String _ t' => after_closing t'
      | "" => None
      end
  end.

Fixpoint no_dot (s : string) : bool :=
  match s with
  | "" => true
  | String c s' => negb (Ascii.eqb "." c) && no_dot s'
  end.

(** [s] up to its last dot, when at least one character follows that dot. *)
Fixpoint strip_last_extension (s : string) : string :=
  match s with
  | "" => ""
  | String c t =>
      if Ascii.eqb "." c && truthy t && no_dot t then ""
      else String c (strip_last_extension t)
  end.

(** *** Paths *)




(** *** Observations *)

(** [d] is a state of the disk between [w] and [w'], the two ends
    included. *)
Definition observed_during w w' d : Prop :=
  ∃ new, seen w' = new ++ seen w ∧ (d ∈ new ∨ d = disk_of w ∨ d = disk_of w').

(** *** Sample worlds *)

(** A host on which no call fails. *)
Definition calm : behaviour :=
  mkBehaviour (mkDate 2024 0 5 9 7 3) None None None None None None None.

Definition fresh_world : world :=
  mkWorld ∅ {[ "n/a.md" := "hello" ]} [] [].

(** A host on which the rename fails. *)
Definition failing_rename : behaviour :=
  mkBehaviour (mkDate 2024 0 5 9 7 3) None None None
    (Some (HostError "EACCES: permission denied" (Some "EACCES"))) None None None.

Definition small_world : world :=
  mkWorld {[ "/base/a.md" := File "old" ]} {[ "a.md" := "new" ]} [] [].

(** A world with a file at the destination of ["n/a.md"]. *)
Definition taken_world : world :=
  mkWorld {[ "/base/n/a.md" := File "old" ]} {[ "n/a.md" := "hello" ]} [] [].

Definition push_again (w : world) : world :=
  (pushSingleFile 5 (mkTFile "n/a.md") (mkPushContext true false "/base")
     (mkTransformOptions false false "" None) calm w).2.

Definition pushed_to (p : string) : PushResult :=
  {| source := "n/a.md"; finalPath := p; bytes := 5; transformed_flag := false |}.

Definition pulling_plugin : ObsidianPushPlugin :=
  mkPlugin (mkSettings "/base" true true true true true "" ".txt" None) (Some "/base").

(** A plugin that pushes to [/base]. *)
Definition pushing_plugin : ObsidianPushPlugin :=
  mkPlugin (mkSettings "/base" true true true false false "" "" None) (Some "/base").

Definition pull_world : world :=
  mkWorld {[ "/base/a.md" := File "---" ]} {[ "a.md" := "mine" ]} [] [].




End vocabulary.

(** ** [main.ts]: the push side of the plugin and the batch commands *)

Module commands.

(** [s.replace(pat, rep)] for two strings: the first occurrence of [pat] is
    replaced; in [rep] the patterns [$$], [$&], [$`] and [$'] stand for a
    dollar sign, the match, the text before it and the text after it, and
    every other [$] is kept as it is (there are no captures). *)
Fixpoint split_at_first (pat s : string) : option (string * string) :=
  match strip_prefix pat s with
  | Some post => Some ("", post)
  | None =>
      match s with
      | String c s' =>
          match split_at_first pat s' with
          | Some (pre, post) => Some (String c pre, post)
          | None => None
          end
      | "" => None
      end
  end.

Definition dollar : ascii := "$".

Fixpoint GetSubstitution (matched pre post : string) (template : string) : string :=
  match template with
  | "" => ""
  | String c rest =>
      if Ascii.eqb c dollar then
        match rest with
        | String c' rest' =>
            if Ascii.eqb c' dollar then String dollar (GetSubstitution matched pre post rest')
            else if Ascii.eqb c' "&" then matched +:+ GetSubstitution matched pre post rest'
            else if Ascii.eqb c' "`" then pre +:+ GetSubstitution matched pre post rest'
            else if Ascii.eqb c' "'" then post +:+ GetSubstitution matched pre post rest'
            else String c (GetSubstitution matched pre post rest)
        | "" => String c ""
        end
      else String c (GetSubstitution matched pre post rest)
  end.

Definition replace_string (s pat rep : string) : string :=
  match split_at_first pat s with
  | Some (pre, post) => pre +:+ GetSubstitution pat pre post rep +:+ post
  | None => s
  end.

Definition renderSuccessMessage (this : ObsidianPushPlugin) (finalPath : string) : string :=
  let tpl :=
    if truthy_opt (successNoticeMessage (settings this))
    then default "" (successNoticeMessage (settings this))
    else "Note pushed" in
  replace_string tpl "{path}" finalPath.

Definition handlePushError (err : exn) : M unit :=
  let msg :=
    match err with
    | PushError message _ => message
    | Error message _ => message
    | Thrown => "Push failed"
    end in
  Notice msg.

Definition pushFile (fuel : nat) (this : ObsidianPushPlugin) (f : TFile)
    (os : behaviour) : M unit :=
  match buildPushContext this with
  | None => Notice "Push: targetDir not configured"
  | Some ctx =>
      let tr := buildTransformOptions this in
      try_catch
        (r ← pushSingleFile fuel f ctx tr os;
         if notifyOnSuccess (settings this)
         then Notice (renderSuccessMessage this (finalPath r))
         else ret ())
        handlePushError
  end.

Record PushSummary : Type := mkPushSummary {
  total : nat;
  count_successes : nat;
  count_failures : nat
}.

Definition pushFiles (fuel : nat) (this : ObsidianPushPlugin) (files : list TFile)
    (os : nat → behaviour) : M PushSummary :=
  match buildPushContext this with
  | None => ret {| total := length files; count_successes := 0; count_failures := 0 |}
  | Some ctx =>
      let tr := buildTransformOptions this in
      batch ← pushMultiple fuel files ctx tr os;
      ret {| total := length files;
             count_successes := length (successes batch);
             count_failures := length (failures batch) |}
  end.

Definition ensureTargetConfigured (this : ObsidianPushPlugin) : M bool :=
  if negb (truthy (targetDir (settings this)))
  then Notice "Configure targetDir first";; ret false
  else ret true.

(** The callback of the command [push-modified-today]; [files] is what
    [gatherModifiedToday()] returns. *)
Definition pushModifiedToday (fuel : nat) (this : ObsidianPushPlugin)
    (files : list TFile) (os : nat → behaviour) : M unit :=
  ok ← ensureTargetConfigured this;
  if negb ok then ret ()
  else
    match files with
    | [] => Notice "No notes modified today"
    | _ =>
        res ← pushFiles fuel this files os;
        Notice ("Pushed " +:+ String_of_nat (count_successes res) +:+ " / "
                +:+ String_of_nat (total res) +:+ " notes")
    end.

(** The callback of the command [push-selected-files]; [selected] is what
    [getExplorerSelection()] returns. *)
Definition pushSelectedFiles (fuel : nat) (this : ObsidianPushPlugin)
    (selected : list TFile) (os : nat → behaviour) : M unit :=
  ok ← ensureTargetConfigured this;
  if negb ok then ret ()
  else
    match selected with
    | [] => Notice "No selection in explorer"
    | _ =>
        res ← pushFiles fuel this selected os;
        Notice ("Pushed " +:+ String_of_nat (count_successes res) +:+ " / "
                +:+ String_of_nat (total res) +:+ " selected")
    end.

(** The loop of the command [pull-selected-files]. *)
Fixpoint pullLoop (this : ObsidianPushPlugin) (selected : list TFile)
    (os : nat → behaviour) (pulled : nat) : M nat :=
  match selected with
  | [] => ret pulled
  | f :: rest =>
      pulled ← try_catch (pullFile this f (os 0);; ret (S pulled))
                         (λ e, handlePullError e;; ret pulled);
      pullLoop this rest (λ k, os (S k)) pulled
  end.

(** The callback of the command [pull-selected-files]. *)
Definition pullSelectedFiles (this : ObsidianPushPlugin) (selected : list TFile)
    (os : nat → behaviour) : M unit :=
  ok ← ensureTargetConfigured this;
  if negb ok then ret ()
  else
    match selected with
    | [] => Notice "No selection in explorer"
    | _ =>
        pulled ← pullLoop this selected os 0;
        Notice ("Pulled " +:+ String_of_nat pulled +:+ " / "
                +:+ String_of_nat (length selected))
    end.

End commands.

(** ** Vocabulary of the statements about the commands and the formatter *)

Import commands.

Section vocabulary_of_formats.

(** The six tokens of [formatTimestamp]. *)
Inductive stamp_token : Type := YYYY | MM | DD | HH | mm | ss.

Definition token_text (t : stamp_token) : string :=
  match t with
  | YYYY => "YYYY" | MM => "MM" | DD => "DD" | HH => "HH" | mm => "mm" | ss => "ss"
  end.

Definition token_letter (t : stamp_token) : ascii :=
  match t with
  | YYYY => "Y" | MM => "M" | DD => "D" | HH => "H" | mm => "m" | ss => "s"
  end.

Definition token_value (d : Date) (t : stamp_token) : string :=
  match t with
  | YYYY => String_of_nat (getFullYear d)
  | MM => pad (getMonth d + 1)
  | DD => pad (getDate d)
  | HH => pad (getHours d)
  | mm => pad (getMinutes d)
  | ss => pad (getSeconds d)
  end.

(** [c] does not occur in [s]. *)
Fixpoint free_of (c : ascii) (s : string) : bool :=
  match s with
  | "" => true
  | String x s' => negb (Ascii.eqb c x) && free_of c s'
  end.

(** A text in which none of the letters of the tokens occurs. *)
Definition letter_free (s : string) : bool :=
  free_of "Y" s && free_of "M" s && free_of "D" s && free_of "H" s
  && free_of "m" s && free_of "s" s.

(** A format cut into tokens and texts between them. *)
Inductive piece : Type :=
| Tok (t : stamp_token)
| Txt (s : string).

Definition piece_ok (p : piece) : bool :=
  match p with
  | Tok _ => true
  | Txt s => letter_free s
  end.

Definition piece_text (p : piece) : string :=
  match p with
  | Tok t => token_text t
  | Txt s => s
  end.

Definition piece_value (d : Date) (p : piece) : string :=
  match p with
  | Tok t => token_value d t
  | Txt s => s
  end.

Fixpoint concat_text (l : list string) : string :=
  match l with
  | [] => ""
  | s :: l' => s +:+ concat_text l'
  end.

Global Instance token_eq_dec : EqDecision stamp_token.
Proof. solve_decision. Defined.

(** The set [done] of tokens with [T] added. *)
Definition mark (T : stamp_token) (done : stamp_token → bool) : stamp_token → bool :=
  λ t, done t || bool_decide (t = T).

(** The pieces after the tokens in [done] were replaced. *)
Definition piece_partly (done : stamp_token → bool) (d : Date) (p : piece) : string :=
  match p with
  | Tok t => if done t then token_value d t else token_text t
  | Txt s => s
  end.

(** The header line that [transformContent] puts in front. *)
Definition header_line (now : Date) (opts : TransformOptions) : string :=
  "<!-- Pushed: "
  +:+ formatTimestamp
        (if truthy (timestampFormat opts) then timestampFormat opts
         else "YYYY-MM-DD HH:mm") now
  +:+ " -->" +:+ nl.

(** The options with the header switched off. *)
Definition without_header (opts : TransformOptions) : TransformOptions :=
  {| sanitizeFrontmatter := sanitizeFrontmatter opts;
     addTimestampHeader := false;
     timestampFormat := timestampFormat opts;
     forceExtension := forceExtension opts |}.

(** The behaviours of the host for the files after the first [n]. *)
Definition later (n : nat) (os : nat → behaviour) : nat → behaviour :=
  λ k, os (n + k).

End vocabulary_of_formats.

(** * Proofs *)

(** ** Facts about strings *)

Section strings.
Implicit Types a b c s t : string.

Lemma str_app_nil_r s : s +:+ "" = s.
Proof. induction s as [|x s IH]; [done|]. unfold String.app in *; simpl. by rewrite IH. Qed.

Lemma str_app_cons x s t : String x s +:+ t = String x (s +:+ t).
Proof. done. Qed.

Lemma str_app_assoc a b c : (a +:+ b) +:+ c = a +:+ b +:+ c.
Proof. induction a as [|x a IH]; [done|]. by rewrite !str_app_cons, IH. Qed.

Lemma str_length_app a b : String.length (a +:+ b) = String.length a + String.length b.
Proof. induction a as [|x a IH]; [done|]. rewrite str_app_cons; simpl. by rewrite IH. Qed.

Lemma str_app_inv_head a b c : a +:+ b = a +:+ c → b = c.
Proof. apply (inj (String.app a)). Qed.

Lemma str_app_neq_self a b : b ≠ "" → a +:+ b ≠ a.
Proof.
  intros Hb E. apply (f_equal String.length) in E. rewrite str_length_app in E.
  destruct b; [done|]. simpl in E. lia.
Qed.

Lemma length_slice0 n s : String.length (slice0 n s) = n `min` String.length s.
Proof.
  revert s; induction n as [|n IH]; intros [|x s]; simpl; try done.
  by rewrite IH.
Qed.

Lemma str_app_inv_tail a b c : a +:+ c = b +:+ c → a = b.
Proof.
  revert b; induction a as [|x a IH]; intros [|y b] E; try done.
  - apply (f_equal String.length) in E.
    rewrite !str_length_app in E; simpl in E. lia.
  - apply (f_equal String.length) in E.
    rewrite !str_length_app in E; simpl in E. lia.
  - rewrite !str_app_cons in E. injection E as -> E. f_equal. by apply IH.
Qed.
End strings.

(** ** Decimal numerals *)

Lemma String_of_nat_digits n : all_digits (String_of_nat n) = true.
Proof.
  unfold String_of_nat. generalize (Nat.to_uint n) as d.
  induction d; simpl; by rewrite ?IHd.
Qed.

Lemma String_of_nat_inj i j : String_of_nat i = String_of_nat j → i = j.
Proof.
  unfold String_of_nat; intros E.
  apply DecimalNat.Unsigned.to_uint_inj.
  assert (Some (Nat.to_uint i) = Some (Nat.to_uint j)) as H; [|by injection H].
  by rewrite <- !NilEmpty.usu, E.
Qed.

Lemma String_of_nat_nonempty n : 1 ≤ String.length (String_of_nat n).
Proof.
  unfold String_of_nat. destruct n; [vm_compute; lia|].
  assert (Nat.to_uint (S n) ≠ Decimal.Nil) as H.
  { intros E. apply (f_equal Nat.of_uint) in E.
    rewrite DecimalNat.Unsigned.of_to in E. done. }
  destruct (Nat.to_uint (S n)); simpl; try lia. done.
Qed.

Lemma leading_digits_app n rest :
  all_digits n = true → stops_digits rest → leading_digits (n +:+ rest) = n.
Proof.
  intros Hn Hr. induction n as [|c n IH].
  - destruct rest as [|c r]; [done|]. simpl in *. by rewrite Hr.
  - rewrite str_app_cons. simpl in *. apply andb_prop in Hn as [-> Hn]. by rewrite IH.
Qed.

(** ** The collision loop *)

Section collision.
Implicit Types d : disk.
Implicit Types b ext : string.

Lemma candidate_inj b ext i j : candidate b i ext = candidate b j ext → i = j.
Proof.
  unfold candidate. intros E.
  do 2 apply str_app_inv_head in E. apply str_app_inv_tail in E.
  by apply String_of_nat_inj.
Qed.

Lemma length_candidate b i ext :
  String.length (candidate b i ext)
  = String.length b + 1 + String.length (String_of_nat i) + String.length ext.
Proof. unfold candidate. rewrite !str_length_app. simpl. lia. Qed.

Lemma exists_in_true d p : exists_in d p = true ↔ is_Some (d !! p).
Proof. unfold exists_in. by rewrite bool_decide_eq_true. Qed.

Lemma exists_in_false d p : exists_in d p = false ↔ d !! p = None.
Proof. unfold exists_in. by rewrite bool_decide_eq_false, eq_None_not_Some. Qed.

Lemma least_free_unique d b ext i j j' :
  least_free d b ext i j → least_free d b ext i j' → j = j'.
Proof.
  intros (Hi & Hj & Hlt) (Hi' & Hj' & Hlt').
  destruct (lt_eq_lt_dec j j') as [[H|H]|H]; [|done|].
  - rewrite Hlt' in Hj; [done|lia].
  - rewrite Hlt in Hj'; [done|lia].
Qed.

Lemma least_free_bounded n : ∀ d b ext i,
  size d ≤ n → ∃ j, least_free d b ext i j.
Proof.
  induction n as [|n IH]; intros d b ext i Hn.
  - exists i. split; [lia|]. split; [|intros; lia].
    assert (d = ∅) as -> by (apply map_size_empty_inv; lia).
    by apply exists_in_false.
  - destruct (exists_in d (candidate b i ext)) eqn:E.
    + apply exists_in_true in E as [x Hx].
      destruct (IH (delete (candidate b i ext) d) b ext (S i)) as (j & Hi & Hj & Hlt).
      { rewrite map_size_delete, Hx. lia. }
      exists j. split; [lia|]. split.
      * apply exists_in_false. apply exists_in_false in Hj.
        rewrite lookup_delete_ne in Hj; [done|].
        intros E%candidate_inj. lia.
      * intros k Hk. destruct (decide (k = i)) as [->|].
        { apply exists_in_true. by eexists. }
        specialize (Hlt k ltac:(lia)). apply exists_in_true in Hlt.
        apply exists_in_true.
        rewrite lookup_delete_ne in Hlt; [done|].
        intros E%candidate_inj. lia.
    + exists i. split; [lia|]. split; [done|intros; lia].
Qed.

(** The disk is finite, so the loop has a first free index to stop at. *)
Lemma least_free_exists d b ext i : ∃ j, least_free d b ext i j.
Proof. by apply (least_free_bounded (size d)). Qed.

Lemma suffix_loop_least fuel : ∀ b ext i j w,
  least_free (disk_of w) b ext i j → j - i < fuel →
  suffix_loop fuel b ext i w = (Ok j, w).
Proof.
  induction fuel as [|fuel IH]; intros b ext i j w (Hi & Hj & Hlt) Hf; [lia|].
  simpl. unfold bind, existsSync at 1.
  destruct (decide (i = j)) as [->|Hne].
  - by rewrite Hj.
  - rewrite Hlt by lia. apply IH; [|lia].
    split; [lia|]. split; [done|]. intros k Hk. apply Hlt. lia.
Qed.

Lemma suffix_loop_sound fuel : ∀ b ext i w o w',
  suffix_loop fuel b ext i w = (o, w') →
  w' = w ∧
  match o with
  | Ok j => least_free (disk_of w) b ext i j
  | Throw _ => False
  | Diverge => True
  end.
Proof.
  induction fuel as [|fuel IH]; intros b ext i w o w' H.
  - injection H as <- <-. done.
  - simpl in H. unfold bind, existsSync at 1 in H.
    destruct (exists_in (disk_of w) (candidate b i ext)) eqn:E.
    + apply IH in H as [-> H]. split; [done|].
      destruct o as [j| |]; try done.
      destruct H as (Hi & Hj & Hlt). split; [lia|]. split; [done|].
      intros k Hk. destruct (decide (k = i)) as [->|]; [done|]. apply Hlt. lia.
    + injection H as <- <-. split; [done|].
      split; [lia|]. split; [done|]. intros; lia.
Qed.
End collision.

(** ** What the calls of the host do to the disk *)

Section host_effects.
Implicit Types d st : disk.
Implicit Types w : world.

Lemma raised_not_push_error e : ¬ is_push_error (raised e).
Proof. destruct e; simpl; tauto. Qed.

Lemma agree_off_refl p d : agree_off p d d.
Proof. by intros q _. Qed.

Lemma only_new_dirs_refl ps d : only_new_dirs ps d d.
Proof. intros q. by left. Qed.

Lemma only_new_dirs_make_dir ps d st p :
  only_new_dirs ps d st → p ∈ ps → only_new_dirs ps d (make_dir p st).
Proof.
  intros H Hp q. unfold make_dir.
  destruct (st !! p) eqn:E; [apply H|].
  destruct (decide (q = p)) as [->|Hne].
  - rewrite lookup_insert_eq. destruct (H p) as [H1|(_ & _ & H1)]; [|congruence].
    right. by rewrite <- H1.
  - rewrite lookup_insert_ne by done. apply H.
Qed.

Lemma last_cons_default {A} (l : list A) (x a a' : A) :
  List.last (x :: l) a = List.last (x :: l) a'.
Proof. revert x; induction l as [|y l IH]; intros x; [done|]. apply (IH y). Qed.

Lemma mkdir_states_spec PS d0 : ∀ ps st,
  only_new_dirs PS d0 st → ps ⊆ PS →
  Forall (only_new_dirs PS d0) (mkdir_states ps st) ∧
  only_new_dirs PS d0 (List.last (mkdir_states ps st) st).
Proof.
  induction ps as [|p ps IH]; intros st Hst Hsub; [by split|].
  assert (only_new_dirs PS d0 (make_dir p st)) as H1.
  { apply only_new_dirs_make_dir; [done|]. apply Hsub. by left. }
  destruct (IH (make_dir p st) H1) as [H2 H3].
  { intros x Hx. apply Hsub. by right. }
  split; [by constructor|].
  simpl. destruct (mkdir_states ps (make_dir p st)) eqn:E; [done|].
  by rewrite (last_cons_default _ _ _ (make_dir p st)).
Qed.

Lemma content_at_only_new_dirs ps d st q :
  only_new_dirs ps d st → content_at st q = content_at d q.
Proof.
  intros H. unfold content_at. destruct (H q) as [->|(_ & -> & ->)]; done.
Qed.

Lemma through_refl (P : disk → Prop) w : P (disk_of w) → through P w w.
Proof. intros H. repeat split; [done|]. by exists []. Qed.

Lemma through_trans (P : disk → Prop) w1 w2 w3 :
  through P w1 w2 → through P w2 w3 → through P w1 w3.
Proof.
  intros (Hv & Hn & _ & new & Hs & Hf) (Hv' & Hn' & Hd' & new' & Hs' & Hf').
  repeat split; [congruence|congruence|done|].
  exists (new' ++ new). rewrite Hs', Hs, (assoc (++)). split; [done|].
  by apply Forall_app.
Qed.

Lemma through_weaken (P Q : disk → Prop) w w' :
  (∀ d, P d → Q d) → through P w w' → through Q w w'.
Proof.
  intros H (Hv & Hn & Hd & new & Hs & Hf). repeat split; [done|done|by apply H|].
  exists new. split; [done|]. eapply Forall_impl; eauto.
Qed.

Lemma through_observe (P : disk → Prop) mid d w :
  Forall P mid → P d → through P w (observe mid d w).
Proof.
  intros Hm Hd. repeat split; [done|]. exists (d :: rev mid). split; [done|].
  constructor; [done|]. by apply Forall_rev.
Qed.

Lemma mkdir_spec fault dir w o w' :
  mkdir fault dir w = (o, w') →
  match o with
  | Ok _ => True
  | Throw e => ¬ is_push_error e
  | Diverge => False
  end ∧ through (only_new_dirs (ancestors dir) (disk_of w)) w w'.
Proof.
  unfold mkdir. intros H.
  destruct fault as [[k e]|].
  - injection H as <- <-. split; [apply raised_not_push_error|].
    destruct (mkdir_states_spec (ancestors dir) (disk_of w)
                (take k (ancestors dir)) (disk_of w)) as [H1 H2].
    { apply only_new_dirs_refl. }
    { intros x (i & Hi & _)%elem_of_take. by eapply list_elem_of_lookup_2. }
    by apply through_observe.
  - destruct (existsb _ _).
    + injection H as <- <-. split; [destruct (is_file _ _); simpl; tauto|].
      apply through_refl, only_new_dirs_refl.
    + injection H as <- <-. split; [done|].
      destruct (mkdir_states_spec (ancestors dir) (disk_of w)
                  (ancestors dir) (disk_of w)) as [H1 H2]; [|done|].
      { apply only_new_dirs_refl. }
      by apply through_observe.
Qed.

Lemma agree_off_insert p d st n :
  agree_off p d st → agree_off p d (<[p := n]> st).
Proof. intros H q Hq. rewrite lookup_insert_ne by done. by apply H. Qed.

Lemma agree_off_delete p d st :
  agree_off p d st → agree_off p d (delete p st).
Proof. intros H q Hq. rewrite lookup_delete_ne by done. by apply H. Qed.

Lemma write_states_agree p content n d :
  Forall (agree_off p d) (write_states p content n d).
Proof.
  unfold write_states. apply Forall_map, Forall_forall. intros j _.
  apply agree_off_insert, agree_off_refl.
Qed.

Lemma writeFile_spec fault p content w o w' :
  writeFile fault p content w = (o, w') →
  through (agree_off p (disk_of w)) w w' ∧
  match o with
  | Ok _ => disk_of w' = <[p := File content]> (disk_of w)
  | Throw _ => True
  | Diverge => False
  end.
Proof.
  unfold writeFile. intros H.
  assert (through (agree_off p (disk_of w)) w w) as Hrefl
    by apply through_refl, agree_off_refl.
  destruct (disk_of w !! p) as [[c|]|] eqn:E;
    try (injection H as <- <-; by split).
  all: destruct fault as [[[k|] e]|]; injection H as <- <-; (split; [|done]);
    try done;
    apply through_observe;
      auto using write_states_agree, agree_off_insert, agree_off_refl.
Qed.

Lemma rename_spec fault from to w o w' :
  rename fault from to w = (o, w') →
  match o with
  | Ok _ => ∃ n, disk_of w !! from = Some n ∧
            w' = observe [] (<[to := n]> (delete from (disk_of w))) w
  | Throw _ => w' = w
  | Diverge => False
  end.
Proof.
  unfold rename. intros H.
  destruct fault; [by injection H as <- <-|].
  destruct (disk_of w !! from) as [n|]; [|by injection H as <- <-].
  destruct n, (disk_of w !! to) as [[]|]; injection H as <- <-; eauto.
Qed.

Lemma unlink_spec fault p w o w' :
  unlink fault p w = (o, w') →
  match o with
  | Ok _ => w' = observe [] (delete p (disk_of w)) w
  | Throw _ => w' = w
  | Diverge => False
  end.
Proof.
  unfold unlink. intros H.
  destruct fault; [by injection H as <- <-|].
  destruct (disk_of w !! p) as [[]|]; by injection H as <- <-.
Qed.
End host_effects.

Section write_protocol.
Implicit Types d st : disk.
Implicit Types w : world.

Lemma tmp_neq final : final +:+ ".tmp" ≠ final.
Proof. by apply str_app_neq_self. Qed.

Lemma onWriteError_spec os tmp final err w o w' :
  onWriteError os tmp final err w = (o, w') →
  o = Throw (PushError (write_error_message (error_code err) +:+ ": " +:+ final)
                       (error_code err)) ∧
  through (agree_off tmp (disk_of w)) w w'.
Proof.
  unfold onWriteError, bind, existsSync, try_catch, throw, ret. intros H.
  pose proof (through_refl (agree_off tmp (disk_of w)) w (agree_off_refl _ _)) as Hr.
  destruct (exists_in (disk_of w) tmp).
  - destruct (unlink (unlink_fault os) tmp w) as [o1 w1] eqn:HU.
    apply unlink_spec in HU.
    destruct o1 as [[]|e|]; [| |done]; subst w1; injection H as <- <-;
      (split; [done|]); [|done].
    apply through_observe; [done|]. apply agree_off_delete, agree_off_refl.
  - by injection H as <- <-.
Qed.

Lemma agree_off_trans p d1 d2 d3 :
  agree_off p d1 d2 → agree_off p d2 d3 → agree_off p d1 d3.
Proof. intros H1 H2 q Hq. rewrite H2, H1; done. Qed.

Lemma through_agree_off_trans p w1 w2 w3 :
  through (agree_off p (disk_of w1)) w1 w2 →
  through (agree_off p (disk_of w2)) w2 w3 →
  through (agree_off p (disk_of w1)) w1 w3.
Proof.
  intros H1 H2. eapply through_trans; [done|].
  eapply through_weaken; [|done].
  intros d. apply agree_off_trans. apply H1.
Qed.

(** The two outcomes of the write protocol.  On success the disk is
    [written] and every earlier state differs from the first one at the
    temporary path only; on failure a [PushError] is thrown and every
    state, the last one included, differs from the first one at the
    temporary path only. *)
Lemma writeThroughTmp_spec os final content w o w' :
  writeThroughTmp os final content w = (o, w') →
  vault_of w' = vault_of w ∧ notices w' = notices w ∧
  match o with
  | Ok _ =>
      disk_of w' = written final content (disk_of w) ∧
      ∃ mid, seen w' = disk_of w' :: mid ++ seen w ∧
             Forall (agree_off (final +:+ ".tmp") (disk_of w)) mid
  | Throw e =>
      (∃ c, e = PushError (write_error_message c +:+ ": " +:+ final) c) ∧
      agree_off (final +:+ ".tmp") (disk_of w) (disk_of w') ∧
      ∃ new, seen w' = new ++ seen w ∧
             Forall (agree_off (final +:+ ".tmp") (disk_of w)) new
  | Diverge => False
  end.
Proof.
  unfold writeThroughTmp, try_catch, bind. intros H.
  set (tmp := final +:+ ".tmp") in *.
  assert (∀ e w1, through (agree_off tmp (disk_of w)) w w1 →
            onWriteError os tmp final e w1 = (o, w') →
            vault_of w' = vault_of w ∧ notices w' = notices w ∧
            match o with
            | Ok _ => False
            | Throw e =>
                (∃ c, e = PushError (write_error_message c +:+ ": " +:+ final) c) ∧
                agree_off tmp (disk_of w) (disk_of w') ∧
                ∃ new, seen w' = new ++ seen w ∧
                       Forall (agree_off tmp (disk_of w)) new
            | Diverge => False
            end) as Hcatch.
  { intros e w1 H1 [-> H2]%onWriteError_spec.
    pose proof (through_agree_off_trans _ _ _ _ H1 H2) as (Hv & Hn & Hd & new & Hs & Hf).
    repeat split; eauto. }
  destruct (writeFile (writeFile_fault os) tmp content w) as [o1 w1] eqn:HW.
  apply writeFile_spec in HW as [HW1 HW2].
  destruct o1 as [[]|e|]; [| |done].
  - destruct (rename (rename_fault os) tmp final w1) as [o2 w2] eqn:HR.
    apply rename_spec in HR.
    destruct o2 as [[]|e|]; [| |done].
    + destruct HR as (n & Hn & ->). injection H as <- <-.
      rewrite HW2, lookup_insert_eq in Hn. injection Hn as <-.
      destruct HW1 as (Hv & Hno & Hd & new & Hs & Hf).
      repeat split; [done|done|by simpl; rewrite HW2|].
      exists new. simpl. by rewrite Hs.
    + subst w2. destruct (Hcatch e w1 HW1 H) as (? & ? & Ho).
      repeat split; [done|done|]. by destruct o.
  - destruct (Hcatch e w1 HW1 H) as (? & ? & Ho).
    repeat split; [done|done|]. by destruct o.
Qed.
End write_protocol.

Section single_push.
Implicit Types d st : disk.
Implicit Types w : world.

Lemma resolveFinalPath_sound fuel ctx dest w o w' :
  resolveFinalPath fuel ctx dest w = (o, w') →
  w' = w ∧
  match o with
  | Ok p => resolved (disk_of w) ctx dest p
  | Throw _ => False
  | Diverge => True
  end.
Proof.
  unfold resolveFinalPath, resolved, bind, existsSync at 1, ret. intros H.
  destruct (negb (overwriteExisting ctx) && exists_in (disk_of w) dest).
  - destruct (suffix_loop _ _ _ _ w) as [o1 w1] eqn:E.
    apply suffix_loop_sound in E as [-> E].
    destruct o1 as [i| |]; [|done|]; injection H as <- <-; [|done].
    split; [done|]. by exists i.
  - by injection H as <- <-.
Qed.

Lemma resolveFinalPath_terminates ctx dest w :
  ∃ p fuel0, ∀ fuel, fuel0 ≤ fuel → resolveFinalPath fuel ctx dest w = (Ok p, w).
Proof.
  unfold resolveFinalPath, bind, existsSync at 1, ret.
  destruct (negb (overwriteExisting ctx) && exists_in (disk_of w) dest).
  - destruct (least_free_exists (disk_of w) (base_of dest) (ext_of dest) 1)
      as [j Hj].
    exists (candidate (base_of dest) j (ext_of dest)), (S j). intros fuel Hf.
    pose proof (suffix_loop_least fuel _ _ 1 j w Hj ltac:(lia)) as E.
    unfold base_of, ext_of in E. by rewrite E.
  - by exists dest, 0.
Qed.

Lemma vault_read_spec fault p w o w' :
  vault_read fault p w = (o, w') →
  w' = w ∧
  match o with
  | Ok raw => vault_of w !! p = Some raw
  | Throw e => ¬ is_push_error e
  | Diverge => False
  end.
Proof.
  unfold vault_read. intros H. destruct fault as [e|].
  - injection H as <- <-. split; [done|]. apply raised_not_push_error.
  - destruct (vault_of w !! p); injection H as <- <-; (split; [done|]);
      simpl; tauto.
Qed.

(** A push is a read of the vault, the creation of directories, the
    choice of the final path and the write protocol; it stops at the
    first of them that fails. *)
Lemma pushSingleFile_spec fuel f ctx tr os w o w' :
  pushSingleFile fuel f ctx tr os w = (o, w') →
  (∃ e, o = Throw e ∧ ¬ is_push_error e ∧
        through (only_new_dirs (dirs_of f ctx tr) (disk_of w)) w w')
  ∨ (o = Diverge ∧ through (only_new_dirs (dirs_of f ctx tr) (disk_of w)) w w')
  ∨ (∃ raw w1 final u,
       vault_of w !! file_path f = Some raw ∧
       through (only_new_dirs (dirs_of f ctx tr) (disk_of w)) w w1 ∧
       resolved (disk_of w1) ctx (destPath f ctx tr) final ∧
       writeThroughTmp os final (content (transformContent (clock os) raw tr)) w1
         = (u, w') ∧
       match u with
       | Ok _ =>
           o = Ok {| source := file_path f; finalPath := final;
                     bytes := String.length
                                (content (transformContent (clock os) raw tr));
                     transformed_flag :=
                       transformed (transformContent (clock os) raw tr) |}
       | Throw e => o = Throw e
       | Diverge => False
       end).
Proof.
  unfold pushSingleFile. unfold bind at 1. intros H.
  destruct (vault_read _ _ w) as [o1 w1] eqn:HR.
  apply vault_read_spec in HR as [-> HR].
  pose proof (through_refl _ w (only_new_dirs_refl (dirs_of f ctx tr) (disk_of w))) as Hrefl.
  destruct o1 as [raw|e|]; [| |done].
  2:{ injection H as <- <-. left. by exists e. }
  unfold bind at 1 in H.
  destruct (mkdir _ _ w) as [o2 w2] eqn:HM.
  apply mkdir_spec in HM as [HM1 HM2]. fold (dirs_of f ctx tr) in HM2.
  destruct o2 as [[]|e|]; [| |done].
  2:{ injection H as <- <-. left. by exists e. }
  unfold bind at 1 in H.
  destruct (resolveFinalPath _ _ _ w2) as [o3 w3] eqn:HF.
  apply resolveFinalPath_sound in HF as [-> HF].
  destruct o3 as [final|e|]; [|done|].
  2:{ injection H as <- <-. right. left. by split. }
  unfold bind at 1 in H.
  destruct (writeThroughTmp _ _ _ w2) as [u w4] eqn:HW.
  right. right. exists raw, w2, final, u.
  pose proof (writeThroughTmp_spec _ _ _ _ _ _ HW) as (_ & _ & HWs).
  destruct u as [[]|e|]; [| |done]; injection H as <- <-; by split_and!.
Qed.
End single_push.

Section batch.
Implicit Types w : world.

Lemma length_pick {A : Type} (flags : list bool) (l : list A) :
  length flags = length l →
  length (pick flags l) + length (pick (map negb flags) l) = length l.
Proof.
  revert l; induction flags as [|b flags IH]; intros [|x l] H; try done.
  injection H as H. specialize (IH l H). destruct b; simpl; lia.
Qed.

Lemma pushSingleFile_terminates f ctx tr os w :
  ∃ fuel0 o w', o ≠ Diverge ∧
    ∀ fuel, fuel0 ≤ fuel → pushSingleFile fuel f ctx tr os w = (o, w').
Proof.
  unfold pushSingleFile. unfold bind at 1.
  destruct (vault_read _ _ w) as [o1 w1] eqn:HR.
  pose proof (vault_read_spec _ _ _ _ _ HR) as [-> HR'].
  destruct o1 as [raw|e|]; [| |done].
  2:{ by exists 0, (Throw e), w. }
  unfold bind at 1.
  destruct (mkdir _ _ w) as [o2 w2] eqn:HM.
  pose proof (mkdir_spec _ _ _ _ _ HM) as [HM' _].
  destruct o2 as [[]|e|]; [| |done].
  2:{ by exists 0, (Throw e), w2. }
  destruct (resolveFinalPath_terminates ctx (destPath f ctx tr) w2)
    as (p & fuel0 & Hp).
  destruct (writeThroughTmp os p (content (transformContent (clock os) raw tr)) w2)
    as [u w3] eqn:HW.
  pose proof (writeThroughTmp_spec _ _ _ _ _ _ HW) as (_ & _ & HW').
  destruct u as [[]|e|]; [| |done].
  - eexists fuel0, (Ok _), w3. split; [done|]. intros fuel Hf.
    unfold bind. by rewrite (Hp fuel Hf), HW.
  - exists fuel0, (Throw e), w3. split; [done|]. intros fuel Hf.
    unfold bind. by rewrite (Hp fuel Hf), HW.
Qed.

Lemma source_of_push fuel f ctx tr os w r w' :
  pushSingleFile fuel f ctx tr os w = (Ok r, w') → source r = file_path f.
Proof.
  intros [(e & ? & _)|[(? & _)|(raw & w1 & final & u & _ & _ & _ & _ & Hu)]]%pushSingleFile_spec;
    try done.
  destruct u as [[]|e|]; [|done|done]. by injection Hu as ->.
Qed.

Lemma file_of_failure f e : file (failure_of f e) = file_path f.
Proof. by destruct e. Qed.

(** What a batch returns, under any amount of fuel: never an exception;
    and a result records every input once, in input order. *)
Lemma pushLoop_sound fuel ctx tr : ∀ files os succ fail w o w',
  pushLoop fuel files ctx tr os succ fail w = (o, w') →
  match o with
  | Ok batch =>
      ∃ flags, length flags = length files ∧
        map source (successes batch)
        = map source succ ++ pick flags (map file_path files) ∧
        map file (failures batch)
        = map file fail ++ pick (map negb flags) (map file_path files)
  | Throw _ => False
  | Diverge => True
  end.
Proof.
  induction files as [|f files IH]; intros os succ fail w o w' H.
  - injection H as <- <-. exists []. simpl. by rewrite !app_nil_r.
  - simpl in H. unfold bind at 1, try_catch, bind at 1, ret in H.
    destruct (pushSingleFile fuel f ctx tr (os 0) w) as [o1 w1] eqn:HP.
    destruct o1 as [r|e|].
    + apply IH in H. destruct o as [batch| |]; [|done|done].
      destruct H as (flags & Hl & Hs & Hf).
      exists (true :: flags). split; [by simpl; rewrite Hl|].
      rewrite Hs, Hf, map_app, <- (assoc (++)). simpl.
      by rewrite (source_of_push _ _ _ _ _ _ _ _ HP).
    + apply IH in H. destruct o as [batch| |]; [|done|done].
      destruct H as (flags & Hl & Hs & Hf).
      exists (false :: flags). split; [by simpl; rewrite Hl|].
      rewrite Hs, Hf, map_app, <- (assoc (++)). simpl.
      by rewrite file_of_failure.
    + by injection H as <- <-.
Qed.

Lemma pushLoop_terminates ctx tr : ∀ files os succ fail w,
  ∃ fuel0 batch w', ∀ fuel, fuel0 ≤ fuel →
    pushLoop fuel files ctx tr os succ fail w = (Ok batch, w').
Proof.
  induction files as [|f files IH]; intros os succ fail w.
  - by eexists 0, _, w.
  - destruct (pushSingleFile_terminates f ctx tr (os 0) w)
      as (fuel1 & o1 & w1 & Ho1 & H1).
    destruct o1 as [r|e|]; [| |done].
    + destruct (IH (λ k, os (S k)) (succ ++ [r]) fail w1) as (fuel2 & batch & w2 & H2).
      exists (fuel1 `max` fuel2), batch, w2. intros fuel Hf.
      simpl. unfold bind at 1, try_catch, bind at 1, ret.
      rewrite H1 by lia. apply H2. lia.
    + destruct (IH (λ k, os (S k)) succ (fail ++ [failure_of f e]) w1)
        as (fuel2 & batch & w2 & H2).
      exists (fuel1 `max` fuel2), batch, w2. intros fuel Hf.
      simpl. unfold bind at 1, try_catch, bind at 1, ret.
      rewrite H1 by lia. apply H2. lia.
Qed.

Lemma failure_of_describes f e : describes f e (failure_of f e).
Proof. by destruct e. Qed.

(** What the loop adds to its two lists is what the pushes gave, one after
    the other. *)
Lemma pushLoop_run fuel ctx tr : ∀ files os succ fail w batch w',
  pushLoop fuel files ctx tr os succ fail w = (Ok batch, w') →
  ∃ ss fs,
    successes batch = succ ++ ss ∧ failures batch = fail ++ fs ∧
    batch_run ctx tr files os w ss fs w'.
Proof.
  induction files as [|f files IH]; intros os succ fail w batch w'.
  - intros [= <- <-]. exists [], []. rewrite !app_nil_r. split_and!; [done..|].
    constructor.
  - cbn [pushLoop]. unfold bind at 1, try_catch, bind at 1, ret.
    destruct (pushSingleFile fuel f ctx tr (os 0) w) as [[r|e|] w1] eqn:HP; [| |done].
    + intros (ss & fs & Hs & Hf & Hrun)%IH. exists (r :: ss), fs.
      rewrite Hs, Hf, <- (assoc (++)). split_and!; [done..|].
      by eapply batch_pushed.
    + intros (ss & fs & Hs & Hf & Hrun)%IH. exists ss, (failure_of f e :: fs).
      rewrite Hs, Hf, <- (assoc (++)). split_and!; [done..|].
      eapply batch_failed; [done|apply failure_of_describes|done].
Qed.
End batch.

(** ** Facts about paths *)

Section paths.
Import path.

Lemma length_text l : String.length (text l) = length l.
Proof. induction l as [|c l IH]; simpl; by rewrite ?IH. Qed.

Lemma length_chars p : length (chars p) = String.length p.
Proof. induction p as [|c p IH]; simpl; by rewrite ?IH. Qed.

Lemma length_drop_while f l : length (drop_while f l) ≤ length l.
Proof. induction l as [|c l IH]; simpl; [done|]. destruct (f c); simpl; lia. Qed.

(** An extension is empty or starts with a dot. *)
Lemma extname_shape p : extname p = "" ∨ ∃ r, extname p = String dot r.
Proof.
  unfold extname. repeat case_match; eauto.
Qed.

Lemma dirname_shape p :
  dirname p = "." ∨ dirname p = "/" ∨ dirname p = "//" ∨
  String.length (dirname p) < String.length p.
Proof.
  unfold dirname. rewrite <- (length_chars p).
  destruct (chars p) as [|c0 tl]; [by left|].
  pose proof (length_drop_while (λ c, negb (is_sep c)) (drop_while is_sep (rev tl))) as H1.
  pose proof (length_drop_while is_sep (rev tl)) as H2.
  rewrite length_rev in H2.
  destruct (drop_while _ (drop_while _ _)) as [|x r'].
  - destruct (is_sep c0); auto.
  - destruct (is_sep c0 && bool_decide (r' = [])); [auto|].
    do 3 right. rewrite length_text. simpl in *. rewrite length_rev. lia.
Qed.

Lemma cuts_length done l a :
  a ∈ cuts done l → String.length a ≤ length done + length l.
Proof.
  revert done; induction l as [|c l IH]; intros done; simpl.
  - intros ->%list_elem_of_singleton. rewrite length_text, length_rev. lia.
  - destruct (is_sep c).
    + intros [->|H]%elem_of_cons.
      * rewrite length_text, length_rev. lia.
      * apply IH in H. simpl in H. lia.
    + intros H. apply IH in H. simpl in H. lia.
Qed.

Lemma ancestors_length p a : a ∈ ancestors p → String.length a ≤ String.length p.
Proof.
  unfold ancestors. intros [_ H]%list_elem_of_filter.
  apply cuts_length in H. simpl in H. by rewrite length_chars in H.
Qed.

(** A directory that a push creates is ["."] or shorter than the
    destination. *)
Lemma ancestors_dirname p a :
  a ∈ ancestors (dirname p) → a = "." ∨ String.length a < String.length p.
Proof.
  intros H. destruct (dirname_shape p) as [E|[E|[E|E]]].
  - rewrite E in H. vm_compute in H. apply list_elem_of_singleton in H. by left.
  - rewrite E in H. vm_compute in H. by apply elem_of_nil in H.
  - rewrite E in H. vm_compute in H. by apply elem_of_nil in H.
  - right. apply ancestors_length in H. lia.
Qed.

Lemma normalize_absolute p :
  starts_with_sep p = true → starts_with_sep (normalize p) = true.
Proof.
  destruct p as [|c p]; [done|]. intros H. unfold normalize. rewrite H.
  by destruct (normalizeString _ _).
Qed.

Lemma starts_with_sep_app a b :
  starts_with_sep a = true → starts_with_sep (a +:+ b) = true.
Proof. by destruct a. Qed.

(** The join of an absolute base with anything is absolute. *)
Lemma join_absolute a b :
  starts_with_sep a = true → starts_with_sep (join a b) = true.
Proof.
  intros H. unfold join. destruct a as [|c a]; [done|].
  destruct b; apply normalize_absolute; [done|]. by apply starts_with_sep_app.
Qed.
End paths.

(** ** Consecutive pushes of one file *)

Section consecutive.
Implicit Types d : disk.
Implicit Types w : world.

Lemma numbered_longer dest j :
  String.length dest + 2 ≤ String.length (numbered dest (S j)).
Proof.
  unfold numbered. rewrite length_candidate. unfold base_of, ext_of.
  rewrite length_slice0. pose proof (String_of_nat_nonempty (S j)). lia.
Qed.

Lemma numbered_inj dest i j : numbered dest i = numbered dest j → i = j.
Proof.
  destruct i as [|i], j as [|j]; [done| | |].
  - intros E. pose proof (numbered_longer dest j). rewrite <- E in H. simpl in H. lia.
  - intros E. pose proof (numbered_longer dest i). rewrite E in H. simpl in H. lia.
  - apply candidate_inj.
Qed.

Lemma numbered_longer_neq dest j : numbered dest (S j) ≠ dest.
Proof. intros E. by apply (numbered_inj dest (S j) 0) in E. Qed.

Lemma stops_digits_tmp ext :
  (ext = "" ∨ ∃ r, ext = String path.dot r) →
  stops_digits ext ∧ stops_digits (ext +:+ ".tmp").
Proof. intros [->|[r ->]]; by split. Qed.

(** The temporary file of a push is none of the paths written before. *)
Lemma tmp_not_numbered dest j k :
  (k = 0 → j = 0) → numbered dest k +:+ ".tmp" ≠ numbered dest j.
Proof.
  intros Hjk E. destruct k as [|k].
  - rewrite Hjk in E by done. by apply tmp_neq in E.
  - destruct j as [|j].
    + apply (f_equal String.length) in E. rewrite str_length_app in E.
      pose proof (numbered_longer dest k). simpl in *. lia.
    + unfold numbered, candidate in E.
      rewrite !str_app_assoc in E. do 2 apply str_app_inv_head in E.
      destruct (stops_digits_tmp (ext_of dest) (extname_shape dest)) as [S1 S2].
      pose proof (f_equal leading_digits E) as E'.
      rewrite !leading_digits_app in E' by auto using String_of_nat_digits.
      rewrite E' in E. apply str_app_inv_head in E. by apply tmp_neq in E.
Qed.
End consecutive.

Section consecutive_steps.
Implicit Types d : disk.
Implicit Types w : world.

Lemma filled_only_new_dirs ps d st dest k :
  (∀ a j, a ∈ ps → a ≠ numbered dest j) →
  only_new_dirs ps d st → filled d dest k → filled st dest k.
Proof.
  intros Hps Hst [H1 H2]. split; intros j Hj.
  - specialize (H1 j Hj). apply exists_in_true in H1. apply exists_in_true.
    destruct (Hst (numbered dest j)) as [->|(_ & E & _)]; [done|].
    rewrite E in H1. by destruct H1.
  - specialize (H2 j Hj). apply exists_in_false in H2. apply exists_in_false.
    destruct (Hst (numbered dest j)) as [->|(Hin & _ & _)]; [done|].
    by destruct (Hps _ j Hin).
Qed.

Lemma dir_not_numbered dest a j :
  dest ≠ "." → a ∈ ancestors (path.dirname dest) → a ≠ numbered dest j.
Proof.
  intros Hdest [->|Hlen]%ancestors_dirname E.
  - destruct j as [|j]; [done|].
    pose proof (numbered_longer dest j) as H. rewrite <- E in H. simpl in H. lia.
  - destruct j as [|j]; [simpl in E; subst; lia|].
    pose proof (numbered_longer dest j) as H. rewrite <- E in H. lia.
Qed.

Lemma resolved_filled d ctx dest k p :
  overwriteExisting ctx = false → filled d dest k →
  resolved d ctx dest p → p = numbered dest k.
Proof.
  intros Hov [H1 H2]. unfold resolved. rewrite Hov. simpl.
  destruct k as [|k].
  - pose proof (H2 0 ltac:(lia)) as E. simpl in E. by rewrite E.
  - pose proof (H1 0 ltac:(lia)) as E. simpl in E. rewrite E.
    intros (i & Hi & ->).
    assert (least_free d (base_of dest) (ext_of dest) 1 (S k)) as Hk.
    { split; [lia|]. split; [by apply (H2 (S k))|].
      intros j Hj. destruct j as [|j]; [lia|]. apply (H1 (S j)). lia. }
    by rewrite (least_free_unique _ _ _ _ _ _ Hi Hk).
Qed.

Lemma filled_written d dest k c :
  filled d dest k → filled (written (numbered dest k) c d) dest (S k).
Proof.
  intros [H1 H2]. unfold written. split; intros j Hj.
  - apply exists_in_true.
    destruct (decide (j = k)) as [->|Hne]; [by rewrite lookup_insert_eq|].
    rewrite lookup_insert_ne by (intros E%numbered_inj; lia).
    rewrite lookup_delete_ne by (apply tmp_not_numbered; lia).
    rewrite lookup_insert_ne by (apply tmp_not_numbered; lia).
    apply exists_in_true, H1. lia.
  - apply exists_in_false.
    rewrite lookup_insert_ne by (intros E%numbered_inj; lia).
    destruct (decide (numbered dest k +:+ ".tmp" = numbered dest j)) as [<-|Hne].
    + by rewrite lookup_delete_eq.
    + rewrite lookup_delete_ne, lookup_insert_ne by done.
      apply exists_in_false, H2. lia.
Qed.

(** One more push fills the next numbered path. *)
Lemma push_fills fuel f ctx tr os w r w' k :
  overwriteExisting ctx = false → destPath f ctx tr ≠ "." →
  filled (disk_of w) (destPath f ctx tr) k →
  pushSingleFile fuel f ctx tr os w = (Ok r, w') →
  finalPath r = numbered (destPath f ctx tr) k ∧
  filled (disk_of w') (destPath f ctx tr) (S k).
Proof.
  intros Hov Hdot Hk
    [(e & ? & _)|[(? & _)|(raw & w1 & final & u & _ & Hmk & Hres & Hw & Hu)]]%pushSingleFile_spec;
    try done.
  destruct u as [[]|e|]; [|done|done]. injection Hu as ->.
  assert (filled (disk_of w1) (destPath f ctx tr) k) as Hk1.
  { eapply filled_only_new_dirs; [|apply Hmk|done].
    intros a j Ha. by apply dir_not_numbered. }
  pose proof (resolved_filled _ _ _ _ _ Hov Hk1 Hres) as ->.
  apply writeThroughTmp_spec in Hw as (_ & _ & -> & _).
  split; [done|]. by apply filled_written.
Qed.

Lemma pushes_numbered f ctx tr w rs w' : 
  overwriteExisting ctx = false → destPath f ctx tr ≠ "." →
  pushes f ctx tr w rs w' → ∀ k,
  filled (disk_of w) (destPath f ctx tr) k →
  map finalPath rs = map (numbered (destPath f ctx tr)) (seq k (length rs)).
Proof.
  intros Hov Hdot. induction 1 as [|fuel os w r w1 rs w2 Hp _ IH]; intros k Hk; [done|].
  destruct (push_fills _ _ _ _ _ _ _ _ _ Hov Hdot Hk Hp) as [E Hk'].
  simpl. rewrite E. f_equal. by apply IH.
Qed.
End consecutive_steps.

Section joins.
Import path.














End joins.

Section basenames.
Import path.






End basenames.

Section destinations.



(** The example of the specification, both ways. *)
Lemma flatten_example :
  destPath (mkTFile "folder/sub/note.md") (mkPushContext false false "/base")
    (mkTransformOptions false false "" None) = "/base/note.md".
Proof. reflexivity. Qed.

Lemma replicate_example :
  destPath (mkTFile "folder/sub/note.md") (mkPushContext true false "/base")
    (mkTransformOptions false false "" None) = "/base/folder/sub/note.md".
Proof. reflexivity. Qed.

End destinations.

(** ** The two patterns *)

Section patterns.

Lemma run_lit p r s k :
  run (lit p r) s k
  = match strip_prefix p s with
    | Some s' => run r s' k
    | None => None
    end.
Proof.
  revert s; induction p as [|a p IH]; intros s; [done|].
  simpl. destruct s as [|b s]; [done|]. destruct (Ascii.eqb a b); [apply IH|done].
Qed.

Lemma strip_prefix_app p q s :
  strip_prefix (p +:+ q) s
  = match strip_prefix p s with
    | Some s1 => strip_prefix q s1
    | None => None
    end.
Proof.
  revert s; induction p as [|a p IH]; intros s; [done|].
  rewrite str_app_cons. simpl. destruct s as [|b s]; [done|].
  destruct (Ascii.eqb a b); [apply IH|done].
Qed.

Lemma closing_here t :
  run (lit nl (lit "---" (Opt (lit nl Eps)))) t Some
  = match strip_prefix (nl +:+ "---") t with
    | Some tail => Some (strip_nl tail)
    | None => None
    end.
Proof.
  rewrite strip_prefix_app, run_lit.
  destruct (strip_prefix nl t) as [t1|]; [|done].
  rewrite run_lit. destruct (strip_prefix "---" t1) as [tail|]; [|done].
  cbn [run]. rewrite run_lit. unfold strip_nl.
  by destruct (strip_prefix nl tail).
Qed.

Lemma lazy_any_closing t :
  lazy_star any t (λ s, run (lit nl (lit "---" (Opt (lit nl Eps)))) s Some)
  = after_closing t.
Proof.
  induction t as [|c t IH]; cbn [lazy_star after_closing]; rewrite closing_here.
  - by destruct (strip_prefix (nl +:+ "---") "").
  - destruct (strip_prefix (nl +:+ "---") (String c t)); [done|]. apply IH.
Qed.

(** The frontmatter pattern matches a text that starts with three dashes
    and a line break, up to the first later line break followed by three
    dashes and the line break after them, if there is one. *)
Lemma frontmatter_match s :
  match_here (body FRONTMATTER_RE) s
  = match strip_prefix ("---" +:+ nl) s with
    | Some t => after_closing t
    | None => None
    end.
Proof.
  unfold match_here, FRONTMATTER_RE. cbn [body].
  rewrite run_lit, strip_prefix_app.
  destruct (strip_prefix "---" s) as [s1|]; [|done].
  cbn [run]. rewrite run_lit.
  destruct (strip_prefix nl s1) as [t|]; [|done].
  cbn [run]. apply lazy_any_closing.
Qed.

(** What [transformContent] does to the content when only
    [sanitizeFrontmatter] is on. *)
Lemma sanitize_spec now raw fmt ext :
  transformContent now raw (mkTransformOptions true false fmt ext)
  = match strip_prefix ("---" +:+ nl) raw with
    | Some t =>
        match after_closing t with
        | Some rest => {| content := rest; transformed := true |}
        | None => {| content := raw; transformed := false |}
        end
    | None => {| content := raw; transformed := false |}
    end.
Proof.
  unfold transformContent. cbn [sanitizeFrontmatter addTimestampHeader andb].
  unfold test, replace, exec. cbn [anchored global FRONTMATTER_RE].
  change (match_here _ raw) with (match_here (body FRONTMATTER_RE) raw).
  rewrite frontmatter_match.
  destruct (strip_prefix ("---" +:+ nl) raw) as [t|]; [|done].
  by destruct (after_closing t).
Qed.

Lemma greedy_no_dot_to_end t :
  greedy_star (λ c, negb (Ascii.eqb "." c)) t
    (λ s, run Eos s Some)
  = if no_dot t then Some "" else None.
Proof.
  induction t as [|c t IH]; [done|].
  cbn [greedy_star no_dot]. destruct (negb (Ascii.eqb "." c)); [|done].
  rewrite IH. by destruct (no_dot t).
Qed.

Lemma extension_match s :
  match_here (body EXTENSION_RE) s
  = match s with
    | String c t => if Ascii.eqb "." c && truthy t && no_dot t then Some "" else None
    | "" => None
    end.
Proof.
  unfold match_here, EXTENSION_RE. cbn [body run chr].
  destruct s as [|c t]; [done|].
  destruct (Ascii.eqb "." c); [|done]. cbn [andb].
  destruct t as [|c' t]; [done|]. cbn [truthy andb no_dot].
  destruct (negb (Ascii.eqb "." c')); [|done].
  apply greedy_no_dot_to_end.
Qed.

Lemma extension_search s :
  match search (body EXTENSION_RE) s with
  | Some (pre, rest) => pre +:+ rest
  | None => s
  end = strip_last_extension s.
Proof.
  induction s as [|c t IH]; [done|].
  cbn [search strip_last_extension]. rewrite extension_match.
  destruct (Ascii.eqb "." c && truthy t && no_dot t); [done|].
  rewrite <- IH. by destruct (search (body EXTENSION_RE) t) as [[pre rest]|].
Qed.

(** The extension pattern removes the text from the last dot on, when at
    least one character follows that dot. *)
Lemma replace_extension s :
  replace EXTENSION_RE "" s = strip_last_extension s.
Proof.
  unfold replace, exec. cbn [global anchored EXTENSION_RE].
  change (search _ s) with (search (body EXTENSION_RE) s).
  rewrite <- extension_search.
  by destruct (search (body EXTENSION_RE) s) as [[pre rest]|].
Qed.

(** The destination of a push with a forced extension. *)
Lemma destPath_forced f ctx tr ext :
  forceExtension tr = Some ext → truthy ext = true →
  destPath f ctx tr
  = path.join (targetBase ctx)
      (strip_last_extension
         (if replicateFolders ctx then file_path f else path.basename (file_path f))
       +:+ ext).
Proof.
  intros Hext Ht. unfold destPath. rewrite Hext, Ht, replace_extension.
  by destruct (replicateFolders ctx).
Qed.
End patterns.

(** ** The content transformer *)

Section transform.

(** C3, as stated, fails: two evaluations of [transformContent] on the same
    content and the same options give different results when they read
    different times from the clock. *)
Lemma transformContent_reads_the_clock :
  ¬ (∀ (now1 now2 : Date) (raw : string) (opts : TransformOptions),
       transformContent now1 raw opts = transformContent now2 raw opts).
Proof.
  intros H.
  specialize (H (mkDate 2024 0 5 9 7 3) (mkDate 2024 0 5 9 8 3) "Body"
                (mkTransformOptions false true "" None)).
  vm_compute in H. discriminate H.
Qed.

(** C3, amended: the result of [transformContent] is a function of the
    content, the options and the time on the clock; it does not depend on
    the time when [addTimestampHeader] is off; and with both flags off the
    content is returned as it is, with [transformed = false]. *)
Theorem transformContent_deterministic (raw : string) (opts : TransformOptions)
    (now1 now2 : Date) :
  addTimestampHeader opts = false ∨ now1 = now2 →
  transformContent now1 raw opts = transformContent now2 raw opts ∧
  (sanitizeFrontmatter opts = false → addTimestampHeader opts = false →
   transformContent now1 raw opts = {| content := raw; transformed := false |}).
Proof.
  intros H. split.
  - destruct H as [H| ->]; [|done]. unfold transformContent. by rewrite H.
  - intros H1 H2. unfold transformContent. by rewrite H1, H2.
Qed.

Lemma transformContent_deterministic_witness :
  transformContent (mkDate 2024 0 5 9 7 3) "Body"
    (mkTransformOptions false false "YYYY" None)
  = transformContent (mkDate 1999 11 31 23 59 59) "Body"
      (mkTransformOptions false false "YYYY" None)
  ∧ transformContent (mkDate 2024 0 5 9 7 3) "Body"
      (mkTransformOptions false false "YYYY" None)
    = {| content := "Body"; transformed := false |}.
Proof.
  destruct (transformContent_deterministic "Body"
              (mkTransformOptions false false "YYYY" None)
              (mkDate 2024 0 5 9 7 3) (mkDate 1999 11 31 23 59 59)) as [H1 H2].
  - left. reflexivity.
  - split; [exact H1|]. apply H2; reflexivity.
Defined.

(** The example of the specification: a block with one key is removed. *)
Lemma frontmatter_example now :
  transformContent now ("---" +:+ nl +:+ "key: val" +:+ nl +:+ "---" +:+ nl +:+ "Body")
    (mkTransformOptions true false "" None)
  = {| content := "Body"; transformed := true |}.
Proof. reflexivity. Qed.

(** C2: a frontmatter block with nothing between its two delimiter lines
    is not removed, and the content is reported as not transformed. *)
Theorem empty_frontmatter_is_kept (now : Date) (fmt : string) (ext : option string) :
  transformContent now ("---" +:+ nl +:+ "---" +:+ nl +:+ "Body")
    (mkTransformOptions true false fmt ext)
  = {| content := "---" +:+ nl +:+ "---" +:+ nl +:+ "Body"; transformed := false |}.
Proof. reflexivity. Qed.

(** With an empty block at the top, the pattern runs on to the next line
    that starts with three dashes and the text before it is lost. *)
Lemma empty_frontmatter_eats_body now :
  transformContent now
    ("---" +:+ nl +:+ "---" +:+ nl +:+ "Body" +:+ nl +:+ "---" +:+ nl +:+ "rest")
    (mkTransformOptions true false "" None)
  = {| content := "rest"; transformed := true |}.
Proof. reflexivity. Qed.

(** A closing line that only starts with three dashes ends the block too:
    the rest of that line is kept. *)
Lemma frontmatter_closing_prefix now :
  transformContent now ("---" +:+ nl +:+ "a: 1" +:+ nl +:+ "---b" +:+ nl +:+ "Body")
    (mkTransformOptions true false "" None)
  = {| content := "b" +:+ nl +:+ "Body"; transformed := true |}.
Proof. reflexivity. Qed.

End transform.

(** ** The path resolver *)

Section resolver.

(** C8: the path that a pull reads is the path that a push of the same
    file, with the same context and options, takes as its destination. *)
Theorem computeTargetFilePath_is_destPath (f : TFile) (ctx : PushContext)
    (tr : TransformOptions) :
  computeTargetFilePath f ctx tr = destPath f ctx tr.
Proof. reflexivity. Qed.

(** The example of the specification for the forced extension. *)
Lemma forced_extension_example :
  destPath (mkTFile "notes/x.markdown") (mkPushContext true true "/base")
    (mkTransformOptions false false "" (Some ".txt"))
  = "/base/notes/x.txt".
Proof. reflexivity. Qed.

(** C6: with the folders replicated, a file name without an extension in
    a folder whose name has a dot loses the folder's extension and its own
    name: the rewrite goes across the separator. *)
Theorem forced_extension_eats_folder :
  destPath (mkTFile "notes.v2/README") (mkPushContext true true "/base")
    (mkTransformOptions false false "" (Some ".txt"))
  = "/base/notes.txt".
Proof. reflexivity. Qed.

End resolver.

(** ** The durable writer *)

Section durable.
Implicit Types d st : disk.
Implicit Types w : world.

Lemma observed_through (P : disk → Prop) w w' d :
  through P w w' → P (disk_of w) → observed_during w w' d → P d.
Proof.
  intros (_ & _ & Hd & new & Hs & Hf) Hw (new' & Hs' & Hin).
  rewrite Hs in Hs'. apply app_inv_tail in Hs'. subst new'.
  destruct Hin as [Hin|[->| ->]]; [|done|done].
  rewrite Forall_forall in Hf. by apply Hf.
Qed.

Lemma content_at_agree_off p d st q :
  agree_off p d st → q ≠ p → content_at st q = content_at d q.
Proof. intros H Hq. unfold content_at. by rewrite H. Qed.

Lemma content_at_written final c d : content_at (written final c d) final = Some c.
Proof. unfold content_at, written. by rewrite lookup_insert_eq. Qed.

(** The write protocol: whatever happens, no state of the disk shows at
    the final path anything but what was there or the whole new content. *)
Lemma writeThroughTmp_never_partial os final content w o w' d :
  writeThroughTmp os final content w = (o, w') →
  observed_during w w' d →
  content_at d final = content_at (disk_of w) final ∨
  content_at d final = Some content.
Proof.
  intros (_ & _ & H)%writeThroughTmp_spec (new & Hs & Hin).
  pose proof (tmp_neq final) as Hne.
  assert (∀ st, agree_off (final +:+ ".tmp") (disk_of w) st →
                content_at st final = content_at (disk_of w) final) as Hagree.
  { intros st Hst. apply (content_at_agree_off _ _ _ _ Hst). by intros E. }
  destruct o as [[]|e|]; [| |done].
  - destruct H as (Hd & mid & Hs' & Hf).
    rewrite Hs in Hs'. change (disk_of w' :: mid ++ seen w)
      with ((disk_of w' :: mid) ++ seen w) in Hs'.
    apply app_inv_tail in Hs'. subst new.
    destruct Hin as [[->|Hin]%elem_of_cons|[->| ->]].
    + right. rewrite Hd. apply content_at_written.
    + left. rewrite Forall_forall in Hf. by apply Hagree, Hf.
    + by left.
    + right. rewrite Hd. apply content_at_written.
  - destruct H as (_ & Hd & new' & Hs' & Hf).
    rewrite Hs in Hs'. apply app_inv_tail in Hs'. subst new'.
    left. destruct Hin as [Hin|[->| ->]]; [|done|by apply Hagree].
    rewrite Forall_forall in Hf. by apply Hagree, Hf.
Qed.

Lemma observed_split w w1 w' d :
  (∃ new1, seen w1 = new1 ++ seen w) → (∃ new2, seen w' = new2 ++ seen w1) →
  observed_during w w' d →
  observed_during w w1 d ∨ observed_during w1 w' d.
Proof.
  intros (new1 & H1) (new2 & H2) (new & Hs & Hin).
  rewrite H2, H1, (assoc (++)) in Hs. apply app_inv_tail in Hs. subst new.
  destruct Hin as [[Hin|Hin]%elem_of_app|[->| ->]].
  - right. exists new2. split; [done|]. by left.
  - left. exists new1. split; [done|]. by left.
  - left. exists new1. split; [done|]. right. by left.
  - right. exists new2. split; [done|]. right. by right.
Qed.

Lemma writeThroughTmp_extends os final content w o w' :
  writeThroughTmp os final content w = (o, w') → ∃ new, seen w' = new ++ seen w.
Proof.
  intros (_ & _ & H)%writeThroughTmp_spec.
  destruct o as [[]|e|]; [| |done].
  - destruct H as (_ & mid & -> & _). by exists (disk_of w' :: mid).
  - destruct H as (_ & _ & new & -> & _). by exists new.
Qed.

Lemma observed_end (P : disk → Prop) w w' :
  through P w w' → observed_during w w' (disk_of w').
Proof.
  intros (_ & _ & _ & new & Hs & _). exists new. split; [done|]. right. by right.
Qed.

(** A failed write shows the old content at the final path all along. *)
Lemma failed_write_never_shows os final content w e w' d :
  writeThroughTmp os final content w = (Throw e, w') →
  observed_during w w' d →
  content_at d final = content_at (disk_of w) final.
Proof.
  intros (_ & _ & _ & Hd & new' & Hs' & Hf)%writeThroughTmp_spec (new & Hs & Hin).
  rewrite Hs in Hs'. apply app_inv_tail in Hs'. subst new'.
  assert (∀ st, agree_off (final +:+ ".tmp") (disk_of w) st →
                content_at st final = content_at (disk_of w) final) as Hagree.
  { intros st Hst. apply (content_at_agree_off _ _ _ _ Hst).
    intros E. by apply (tmp_neq final). }
  destruct Hin as [Hin|[->| ->]]; [|done|by apply Hagree].
  rewrite Forall_forall in Hf. by apply Hagree, Hf.
Qed.

(** C7: during a push, every state of the disk shows at the final path
    either what was there before the push or the whole transformed content.
    When the push returns a result, the final path is the one of the
    result; when it throws a [PushError], the final path is the one named
    in the message and only the old content is ever seen; when it stops
    earlier, no file of the disk changes at all. *)
Theorem push_never_shows_partial_content (fuel : nat) (f : TFile)
    (ctx : PushContext) (tr : TransformOptions) (os : behaviour)
    (w w' : world) (o : outcome PushResult) (d : disk) :
  pushSingleFile fuel f ctx tr os w = (o, w') →
  observed_during w w' d →
  match o with
  | Ok r =>
      ∃ raw, vault_of w !! file_path f = Some raw ∧
        (content_at d (finalPath r) = content_at (disk_of w) (finalPath r) ∨
         content_at d (finalPath r)
         = Some (content (transformContent (clock os) raw tr))) ∧
        content_at (disk_of w') (finalPath r)
        = Some (content (transformContent (clock os) raw tr))
  | Throw (PushError message c) =>
      ∃ final, message = write_error_message c +:+ ": " +:+ final ∧
        content_at d final = content_at (disk_of w) final
  | _ => ∀ q, content_at d q = content_at (disk_of w) q
  end.
Proof.
  intros H Hobs.
  assert (∀ w1, through (only_new_dirs (dirs_of f ctx tr) (disk_of w)) w w1 →
            ∀ st q, observed_during w w1 st →
                    content_at st q = content_at (disk_of w) q) as Hdirs.
  { intros w1 Hthr st q Hst.
    apply (content_at_only_new_dirs (dirs_of f ctx tr)).
    apply (observed_through _ _ _ _ Hthr); [apply only_new_dirs_refl|done]. }
  apply pushSingleFile_spec in H
    as [(e & -> & He & Hthr)|[(-> & Hthr)|(raw & w1 & final & u & Hraw & Hthr & _ & Hw & Hu)]].
  - destruct e as [m c|m c|]; [by destruct He| |]; intros q; by eapply Hdirs.
  - intros q; by eapply Hdirs.
  - assert (content_at (disk_of w1) final = content_at (disk_of w) final) as Hprior.
    { eapply Hdirs; [done|]. by eapply observed_end. }
    assert (content_at d final = content_at (disk_of w) final ∨
            content_at d final = Some (content (transformContent (clock os) raw tr)))
      as Hd.
    { destruct (observed_split w w1 w' d) as [H1|H2]; [|by eapply writeThroughTmp_extends|done| |].
      - destruct Hthr as (_ & _ & _ & new & Hs & _). by exists new.
      - left. by eapply Hdirs.
      - rewrite <- Hprior. by eapply writeThroughTmp_never_partial. }
    pose proof (writeThroughTmp_spec _ _ _ _ _ _ Hw) as (_ & _ & Hspec).
    destruct u as [[]|e|]; [| |done].
    + subst o. exists raw. split; [done|]. split; [done|].
      destruct Hspec as [-> _]. apply content_at_written.
    + subst o. destruct Hspec as ([c ->] & Hagree & _).
      exists final. split; [done|].
      destruct Hd as [Hd|Hd]; [done|].
      destruct (observed_split w w1 w' d) as [H1|H2]; [|by eapply writeThroughTmp_extends|done| |].
      * destruct Hthr as (_ & _ & _ & new & Hs & _). by exists new.
      * by eapply Hdirs.
      * rewrite <- Hprior. by eapply failed_write_never_shows.
Qed.
End durable.

Section failed_push.
Implicit Types d st : disk.
Implicit Types w : world.

(** C10: when a push throws a [PushError], the file at the final path,
    the path named in the message, is what it was before the push, and so
    is every other file but the temporary one; directories may have been
    created. *)
Theorem failed_push_keeps_final_path (fuel : nat) (f : TFile) (ctx : PushContext)
    (tr : TransformOptions) (os : behaviour) (w w' : world)
    (message : string) (c : option string) :
  pushSingleFile fuel f ctx tr os w = (Throw (PushError message c), w') →
  ∃ final, message = write_error_message c +:+ ": " +:+ final ∧
    content_at (disk_of w') final = content_at (disk_of w) final ∧
    (∀ q, q ≠ final +:+ ".tmp" →
          content_at (disk_of w') q = content_at (disk_of w) q) ∧
    vault_of w' = vault_of w.
Proof.
  intros [(e & [= E] & He & _)|[([=] & _)|(raw & w1 & final & u & _ & Hthr & _ & Hw & Hu)]]%pushSingleFile_spec.
  { subst e. by destruct He. }
  pose proof (writeThroughTmp_spec _ _ _ _ _ _ Hw) as (Hv & _ & Hspec).
  destruct u as [[]|e|]; [done| |done]. injection Hu as <-.
  destruct Hspec as ([c' [= -> ->]] & Hagree & _).
  assert (∀ q, q ≠ final +:+ ".tmp" →
               content_at (disk_of w') q = content_at (disk_of w) q) as Hq.
  { intros q Hq. rewrite (content_at_agree_off _ _ _ _ Hagree Hq).
    apply (content_at_only_new_dirs (dirs_of f ctx tr)), Hthr. }
  exists final. split; [done|]. split; [|split; [done|]].
  - apply Hq. intros E. by apply (tmp_neq final).
  - rewrite Hv. apply Hthr.
Qed.

Lemma failed_push_keeps_final_path_witness :
  ∃ final,
    "Permission denied writing destination: /base/a.md"
    = write_error_message (Some "EACCES") +:+ ": " +:+ final ∧
    content_at
      (disk_of (pushSingleFile 0 (mkTFile "a.md") (mkPushContext true true "/base")
                  (mkTransformOptions false false "" None) failing_rename
                  small_world).2) final
    = content_at (disk_of small_world) final.
Proof.
  destruct (failed_push_keeps_final_path 0 (mkTFile "a.md")
              (mkPushContext true true "/base")
              (mkTransformOptions false false "" None) failing_rename small_world
              (pushSingleFile 0 (mkTFile "a.md") (mkPushContext true true "/base")
                 (mkTransformOptions false false "" None) failing_rename
                 small_world).2
              "Permission denied writing destination: /base/a.md"
              (Some "EACCES")) as (final & H1 & H2 & _).
  - vm_compute. reflexivity.
  - exists final. split; [exact H1|exact H2].
Defined.
End failed_push.

Section distinct_pushes.
Implicit Types d : disk.
Implicit Types w : world.

Lemma exists_in_only_new_dirs ps d st q :
  only_new_dirs ps d st → exists_in d q = true → exists_in st q = true.
Proof.
  intros H Hq. apply exists_in_true in Hq. apply exists_in_true.
  destruct (H q) as [->|(_ & E & _)]; [done|]. rewrite E in Hq. by destruct Hq.
Qed.

Lemma resolved_not_taken d ctx dest p :
  overwriteExisting ctx = false → resolved d ctx dest p →
  exists_in d p = false ∧
  ∃ k, p = numbered dest k ∧ (k = 0 → exists_in d dest = false) ∧
       (k ≠ 0 → exists_in d dest = true).
Proof.
  intros Hov. unfold resolved. rewrite Hov. simpl.
  destruct (exists_in d dest) eqn:E.
  - intros (i & (Hi & Hfree & _) & ->). split; [done|].
    exists i. destruct i as [|i]; [lia|]. by split_and!.
  - intros ->. split; [done|]. by exists 0.
Qed.

(** A push without overwriting writes to a numbered path that was not
    taken, and leaves the paths written before in place. *)
Lemma push_keeps fuel f ctx tr os w r w' ps :
  overwriteExisting ctx = false →
  kept (disk_of w) (destPath f ctx tr) ps →
  pushSingleFile fuel f ctx tr os w = (Ok r, w') →
  (finalPath r ∉ ps) ∧ kept (disk_of w') (destPath f ctx tr) (finalPath r :: ps).
Proof.
  intros Hov [Hps Hdest]
    [(e & ? & _)|[(? & _)|(raw & w1 & final & u & _ & Hmk & Hres & Hw & Hu)]]%pushSingleFile_spec;
    try done.
  destruct u as [[]|e|]; [|done|done]. injection Hu as ->. simpl.
  apply writeThroughTmp_spec in Hw as (_ & _ & Hd & _).
  destruct (resolved_not_taken _ _ _ _ Hov Hres) as (Hfree & k & -> & Hk0 & Hk1).
  assert (Forall (λ p, exists_in (disk_of w1) p = true ∧
                       ∃ j, p = numbered (destPath f ctx tr) j) ps) as Hps1.
  { eapply Forall_impl; [done|]. intros p [Hp Hj]. split; [|done].
    eapply exists_in_only_new_dirs; [apply Hmk|done]. }
  assert (k = 0 → ps = []) as Hfirst.
  { intros ->. destruct ps as [|p ps]; [done|].
    assert (exists_in (disk_of w) (destPath f ctx tr) = true) as H by (by apply Hdest).
    apply (exists_in_only_new_dirs _ _ _ _ (proj1 (proj2 (proj2 Hmk)))) in H.
    rewrite Hk0 in H; done. }
  split.
  - intros Hin. rewrite Forall_forall in Hps1. destruct (Hps1 _ Hin) as [H _].
    by rewrite Hfree in H.
  - split.
    + constructor.
      * split; [|by exists k]. apply exists_in_true.
        rewrite Hd. unfold written. by rewrite lookup_insert_eq.
      * rewrite Forall_forall in Hps1. apply Forall_forall. intros p Hin.
        destruct (Hps1 p Hin) as [Hp [j ->]]. split; [|by exists j].
        apply exists_in_true. rewrite Hd. unfold written.
        destruct (decide (numbered (destPath f ctx tr) k
                          = numbered (destPath f ctx tr) j)) as [->|Hne];
          [by rewrite lookup_insert_eq|].
        rewrite lookup_insert_ne by done.
        assert (k = 0 → j = 0) as Hkj.
        { intros Hk. rewrite (Hfirst Hk) in Hin. by apply elem_of_nil in Hin. }
        rewrite lookup_delete_ne, lookup_insert_ne by (by apply tmp_not_numbered).
        by apply exists_in_true.
    + intros _. apply exists_in_true. rewrite Hd. unfold written.
      destruct k as [|k]; [by rewrite lookup_insert_eq|].
      rewrite lookup_insert_ne by (apply (numbered_longer_neq _ k)).
      rewrite lookup_delete_ne, lookup_insert_ne
        by (apply (tmp_not_numbered _ 0 (S k)); lia).
      apply exists_in_true. by apply Hk1.
Qed.

Lemma pushes_distinct f ctx tr w rs w' :
  overwriteExisting ctx = false →
  pushes f ctx tr w rs w' → ∀ ps,
  kept (disk_of w) (destPath f ctx tr) ps →
  NoDup (map finalPath rs) ∧ ∀ p, p ∈ map finalPath rs → p ∉ ps.
Proof.
  intros Hov. induction 1 as [|fuel os w r w1 rs w2 Hp _ IH]; intros ps Hk.
  - split; [constructor|]. intros p Hp. by apply elem_of_nil in Hp.
  - destruct (push_keeps _ _ _ _ _ _ _ _ _ Hov Hk Hp) as [Hnew Hk'].
    destruct (IH _ Hk') as [Hnd Hdis]. split.
    + simpl. constructor; [|done]. intros Hin. apply (Hdis _ Hin). by left.
    + intros p [->|Hin]%elem_of_cons; [done|].
      intros Hps. apply (Hdis _ Hin). by right.
Qed.
End distinct_pushes.

Section batch_results.
Implicit Types d st : disk.
Implicit Types w : world.

(** C1: [pushMultiple] never throws; with enough fuel for the collision
    loops it returns a result, and what it returns has one record for every
    input file: a success or a failure with the path of the file, kept in
    input order in each of the two lists.  The records are those of the
    pushes: the files are pushed one after the other, a push that returns
    gives its result to the successes, and a push that throws gives the
    record of its exception to the failures. *)
Theorem pushMultiple_records_every_file (files : list TFile) (ctx : PushContext)
    (tr : TransformOptions) (os : nat → behaviour) (w : world) :
  (∀ fuel e w', pushMultiple fuel files ctx tr os w ≠ (Throw e, w')) ∧
  ∃ fuel0 batch w' flags,
    (∀ k, pushMultiple (fuel0 + k) files ctx tr os w = (Ok batch, w')) ∧
    length flags = length files ∧
    map source (successes batch) = pick flags (map file_path files) ∧
    map file (failures batch) = pick (map negb flags) (map file_path files) ∧
    length (successes batch) + length (failures batch) = length files ∧
    batch_run ctx tr files os w (successes batch) (failures batch) w'.
Proof.
  split.
  - intros fuel e w' H. by apply pushLoop_sound in H.
  - destruct (pushLoop_terminates ctx tr files os [] [] w) as (fuel0 & batch & w' & H).
    pose proof (pushLoop_sound _ _ _ _ _ _ _ _ _ _ (H fuel0 (le_n _)))
      as (flags & Hl & Hs & Hf).
    destruct (pushLoop_run _ _ _ _ _ _ _ _ _ _ (H fuel0 (le_n _)))
      as (ss & fs & Hss & Hfs & Hrun). simpl in Hss, Hfs. subst ss fs.
    exists fuel0, batch, w', flags. simpl in Hs, Hf.
    split; [intros k; apply H; lia|]. split; [done|]. split; [done|]. split; [done|].
    split; [|done].
    rewrite <- (length_map source), <- (length_map file), Hs, Hf.
    rewrite length_pick, length_map; [done|]. by rewrite length_map.
Qed.

(** C4, as stated, fails: with something already at the destination, the
    first push without overwriting goes to the candidate 1, so the results
    do not start at the destination itself. *)
Lemma suffix_pattern_needs_a_free_destination :
  ¬ (∀ (f : TFile) (ctx : PushContext) (tr : TransformOptions) (w w' : world)
       (rs : list PushResult),
       overwriteExisting ctx = false →
       path.starts_with_sep (targetBase ctx) = true →
       pushes f ctx tr w rs w' →
       map finalPath rs = map (numbered (destPath f ctx tr)) (seq 0 (length rs))).
Proof.
  intros H.
  specialize (H (mkTFile "n/a.md") (mkPushContext true false "/base")
                (mkTransformOptions false false "" None)
                taken_world (push_again taken_world)
                [pushed_to "/base/n/a-1.md"] eq_refl eq_refl).
  assert (pushes (mkTFile "n/a.md") (mkPushContext true false "/base")
            (mkTransformOptions false false "" None)
            taken_world [pushed_to "/base/n/a-1.md"] (push_again taken_world)) as Hp.
  { apply (pushes_cons _ _ _ 5 calm _ _ (push_again taken_world));
      [vm_compute; reflexivity|apply pushes_nil]. }
  specialize (H Hp). vm_compute in H. discriminate H.
Qed.

(** C4, amended: a push that returns writes to the destination itself when
    overwriting is on or nothing is at the destination, and otherwise to the
    candidate with the first free index from 1 on; it writes there the whole
    transformed content; the search for that index ends.  Consequently the
    successful pushes of one file, one after the other without overwriting,
    go to pairwise different paths; and when the target base is absolute
    and none of the numbered paths is taken before the first push, they go
    to the destination, then to the candidates 1, 2, 3, ... in this
    order. *)
Theorem collision_suffixes (f : TFile) (ctx : PushContext) (tr : TransformOptions) :
  (∀ fuel os w r w',
     pushSingleFile fuel f ctx tr os w = (Ok r, w') →
     ∃ raw w1,
       vault_of w !! file_path f = Some raw ∧
       through (only_new_dirs (dirs_of f ctx tr) (disk_of w)) w w1 ∧
       (overwriteExisting ctx = true ∨
        exists_in (disk_of w1) (destPath f ctx tr) = false →
        finalPath r = destPath f ctx tr) ∧
       (overwriteExisting ctx = false →
        exists_in (disk_of w1) (destPath f ctx tr) = true →
        ∃ i, 1 ≤ i ∧
          finalPath r
          = candidate (base_of (destPath f ctx tr)) i (ext_of (destPath f ctx tr)) ∧
          exists_in (disk_of w1) (finalPath r) = false ∧
          ∀ k, 1 ≤ k < i →
               exists_in (disk_of w1)
                 (candidate (base_of (destPath f ctx tr)) k
                            (ext_of (destPath f ctx tr))) = true) ∧
       disk_of w'
       = written (finalPath r) (content (transformContent (clock os) raw tr))
           (disk_of w1)) ∧
  (∀ w, ∃ fuel0 p, ∀ k,
     resolveFinalPath (fuel0 + k) ctx (destPath f ctx tr) w = (Ok p, w)) ∧
  (∀ w rs w',
     overwriteExisting ctx = false →
     pushes f ctx tr w rs w' →
     NoDup (map finalPath rs)) ∧
  (∀ w rs w',
     overwriteExisting ctx = false →
     path.starts_with_sep (targetBase ctx) = true →
     (∀ k, exists_in (disk_of w) (numbered (destPath f ctx tr) k) = false) →
     pushes f ctx tr w rs w' →
     map finalPath rs = map (numbered (destPath f ctx tr)) (seq 0 (length rs))).
Proof.
  split; [|split; [|split]].
  - intros fuel os w r w'
      [(e & ? & _)|[(? & _)|(raw & w1 & final & u & Hraw & Hthr & Hres & Hw & Hu)]]%pushSingleFile_spec;
      try done.
    destruct u as [[]|e|]; [|done|done]. injection Hu as ->. simpl.
    apply writeThroughTmp_spec in Hw as (_ & _ & Hd & _).
    exists raw, w1. split; [done|]. split; [done|].
    unfold resolved in Hres. split; [|split; [|done]].
    + intros [Hov|Hex]; [by rewrite Hov in Hres|].
      by rewrite Hex, andb_false_r in Hres.
    + intros Hov Hex. rewrite Hov, Hex in Hres. simpl in Hres.
      destruct Hres as (i & (Hi & Hfree & Hlt) & ->). by exists i.
  - intros w. destruct (resolveFinalPath_terminates ctx (destPath f ctx tr) w)
      as (p & fuel0 & H).
    exists fuel0, p. intros k. apply H. lia.
  - intros w rs w' Hov Hp.
    apply (pushes_distinct _ _ _ _ _ _ Hov Hp []). by split.
  - intros w rs w' Hov Habs Hfresh Hp.
    assert (destPath f ctx tr ≠ ".") as Hdot.
    { assert (path.starts_with_sep (destPath f ctx tr) = true) as H
        by (unfold destPath; by apply join_absolute).
      intros E. by rewrite E in H. }
    eapply pushes_numbered; try done. split; [intros; lia|]. intros j _. apply Hfresh.
Qed.
End batch_results.

Section sample_runs.

Lemma collision_suffixes_witness :
  pushes (mkTFile "n/a.md") (mkPushContext true false "/base")
    (mkTransformOptions false false "" None) fresh_world
    [pushed_to "/base/n/a.md"; pushed_to "/base/n/a-1.md"; pushed_to "/base/n/a-2.md"]
    (push_again (push_again (push_again fresh_world))) ∧
  ["/base/n/a.md"; "/base/n/a-1.md"; "/base/n/a-2.md"]
  = map (numbered "/base/n/a.md") [0; 1; 2].
Proof.
  assert (pushes (mkTFile "n/a.md") (mkPushContext true false "/base")
    (mkTransformOptions false false "" None) fresh_world
    [pushed_to "/base/n/a.md"; pushed_to "/base/n/a-1.md"; pushed_to "/base/n/a-2.md"]
    (push_again (push_again (push_again fresh_world)))) as Hp.
  { apply (pushes_cons _ _ _ 5 calm _ _ (push_again fresh_world));
      [vm_compute; reflexivity|].
    apply (pushes_cons _ _ _ 5 calm _ _ (push_again (push_again fresh_world)));
      [vm_compute; reflexivity|].
    apply (pushes_cons _ _ _ 5 calm _ _
             (push_again (push_again (push_again fresh_world))));
      [vm_compute; reflexivity|].
    apply pushes_nil. }
  split; [exact Hp|].
  destruct (collision_suffixes (mkTFile "n/a.md") (mkPushContext true false "/base")
              (mkTransformOptions false false "" None)) as (_ & _ & _ & H).
  assert (∀ k, exists_in (disk_of fresh_world)
                 (numbered (destPath (mkTFile "n/a.md")
                              (mkPushContext true false "/base")
                              (mkTransformOptions false false "" None)) k) = false)
    as Hfresh by (intros k; apply exists_in_false, lookup_empty).
  exact (H fresh_world _ _ eq_refl eq_refl Hfresh Hp).
Defined.

Lemma push_never_shows_partial_content_witness :
  content_at
    (disk_of (pushSingleFile 0 (mkTFile "a.md") (mkPushContext true true "/base")
                (mkTransformOptions false false "" None) calm small_world).2)
    "/base/a.md" = Some "new".
Proof.
  destruct (push_never_shows_partial_content 0 (mkTFile "a.md")
              (mkPushContext true true "/base")
              (mkTransformOptions false false "" None) calm small_world
              (pushSingleFile 0 (mkTFile "a.md") (mkPushContext true true "/base")
                 (mkTransformOptions false false "" None) calm small_world).2
              (Ok {| source := "a.md"; finalPath := "/base/a.md"; bytes := 3;
                     transformed_flag := false |})
              (disk_of (pushSingleFile 0 (mkTFile "a.md")
                          (mkPushContext true true "/base")
                          (mkTransformOptions false false "" None) calm
                          small_world).2))
    as (raw & Hraw & _ & H).
  - reflexivity.
  - eexists. split; [symmetry; apply app_nil_r|]. right. right. reflexivity.
  - vm_compute in Hraw. injection Hraw as <-. exact H.
Defined.
End sample_runs.

(** ** Pull *)

Section pull.
Implicit Types w : world.




End pull.

(** ** Examples from the specification *)

Section examples.

(** Batch isolation: of three files, the write of the second one fails;
    the batch has two successes and one failure, for the second file. *)
Lemma batch_isolation_example :
  let files := [mkTFile "a.md"; mkTFile "b.md"; mkTFile "c.md"] in
  let w := mkWorld ∅ {[ "a.md" := "A"; "b.md" := "B"; "c.md" := "C" ]} [] [] in
  let os := λ k, match k with 1 => failing_rename | _ => calm end in
  ∃ batch w',
    pushMultiple 1 files (mkPushContext true true "/out")
      (mkTransformOptions false false "" None) os w = (Ok batch, w') ∧
    map finalPath (successes batch) = ["/out/a.md"; "/out/c.md"] ∧
    failures batch
    = [ {| file := "b.md";
           error := "Permission denied writing destination: /out/b.md";
           code := Some "EACCES" |} ] ∧
    content_at (disk_of w') "/out/b.md" = None.
Proof. do 2 eexists. vm_compute. split_and!; reflexivity. Qed.

(** Overwriting: two pushes of a file with [overwriteExisting] on go to
    the same path, which holds the content of the second push. *)
Lemma overwrite_example :
  let ctx := mkPushContext true true "/out" in
  let tr := mkTransformOptions false false "" None in
  let w := mkWorld ∅ {[ "a.md" := "one" ]} [] [] in
  let w1 := (pushSingleFile 0 (mkTFile "a.md") ctx tr calm w).2 in
  let w1' := mkWorld (disk_of w1) {[ "a.md" := "two" ]} (seen w1) (notices w1) in
  ∃ r1 r2 w2,
    pushSingleFile 0 (mkTFile "a.md") ctx tr calm w = (Ok r1, w1) ∧
    pushSingleFile 0 (mkTFile "a.md") ctx tr calm w1' = (Ok r2, w2) ∧
    finalPath r1 = finalPath r2 ∧
    content_at (disk_of w2) (finalPath r2) = Some "two".
Proof. do 3 eexists. vm_compute. split_and!; reflexivity. Qed.

End examples.

(** * More of the code *)

(** ** The timestamp formatter *)

Section formatter.

Lemma match_here_lit t s : match_here (lit t Eps) s = strip_prefix t s.
Proof.
  unfold match_here. rewrite run_lit. by destruct (strip_prefix t s).
Qed.

Lemma strip_prefix_self t rest : strip_prefix t (t +:+ rest) = Some rest.
Proof.
  induction t as [|c t IH]; [done|].
  rewrite str_app_cons. simpl. by rewrite Ascii.eqb_refl.
Qed.

Lemma replace_all_skip r rep u rest :
  replace_all_from r rep (String.length u) (u +:+ rest)
  = replace_all_from r rep 0 rest.
Proof.
  induction u as [|c u IH]; [done|].
  rewrite str_app_cons. simpl. apply IH.
Qed.

(** At an occurrence of the token the replacement is written and the scan
    goes on behind the token. *)
Lemma replace_all_hit a t rep rest :
  replace_all_from (lit (String a t) Eps) rep 0 (String a t +:+ rest)
  = rep +:+ replace_all_from (lit (String a t) Eps) rep 0 rest.
Proof.
  rewrite str_app_cons. cbn [replace_all_from].
  rewrite match_here_lit.
  change (String a (t +:+ rest)) with (String a t +:+ rest) at 1.
  rewrite strip_prefix_self.
  assert (String.length (String a (t +:+ rest)) - String.length rest
          = S (String.length t)) as ->.
  { simpl. rewrite str_length_app. lia. }
  by rewrite replace_all_skip.
Qed.

(** A text without the first letter of the token is copied. *)
Lemma replace_all_miss a t rep u rest :
  free_of a u = true →
  replace_all_from (lit (String a t) Eps) rep 0 (u +:+ rest)
  = u +:+ replace_all_from (lit (String a t) Eps) rep 0 rest.
Proof.
  intros Hu. induction u as [|x u IH]; [done|].
  simpl in Hu. apply andb_prop in Hu as [Hx Hu].
  rewrite !str_app_cons. cbn [replace_all_from].
  rewrite match_here_lit. cbn [strip_prefix].
  apply negb_true_iff in Hx. rewrite Hx. by rewrite IH.
Qed.

Lemma replace_all_end a t rep :
  replace_all_from (lit (String a t) Eps) rep 0 "" = "".
Proof. done. Qed.

Lemma token_text_letter T : ∃ t, token_text T = String (token_letter T) t.
Proof. destruct T; by eexists. Qed.

Lemma free_of_digits c s : is_digit c = false → all_digits s = true → free_of c s = true.
Proof.
  intros Hc. induction s as [|x s IH]; [done|]. simpl.
  intros [Hx Hs]%andb_prop. rewrite IH by done.
  destruct (Ascii.eqb_spec c x) as [->|]; [congruence|done].
Qed.

Lemma all_digits_app a b :
  all_digits a = true → all_digits b = true → all_digits (a +:+ b) = true.
Proof.
  intros Ha Hb. induction a as [|x a IH]; [done|].
  rewrite str_app_cons. simpl in *. apply andb_prop in Ha as [-> Ha]. by apply IH.
Qed.

Lemma all_digits_zeros k : all_digits (zeros k) = true.
Proof. induction k; [done|]. simpl. done. Qed.

Lemma all_digits_pad n : all_digits (pad n) = true.
Proof.
  unfold pad, padStart0. apply all_digits_app;
    [apply all_digits_zeros|apply String_of_nat_digits].
Qed.

Lemma token_value_digits d T : all_digits (token_value d T) = true.
Proof. destruct T; simpl; auto using String_of_nat_digits, all_digits_pad. Qed.

Lemma token_letter_not_digit T : is_digit (token_letter T) = false.
Proof. by destruct T. Qed.

Lemma free_of_other_token T t : t ≠ T → free_of (token_letter T) (token_text t) = true.
Proof. by destruct T, t. Qed.

Lemma free_of_letter_free T s : letter_free s = true → free_of (token_letter T) s = true.
Proof.
  unfold letter_free. intros H.
  repeat (apply andb_prop in H as [H ?]). by destruct T.
Qed.

(** One pass of [formatTimestamp]: the global replacement of the token [T]
    replaces the pieces that are [T] and nothing else. *)
Lemma replace_token_pass d T done ps :
  done T = false → forallb piece_ok ps = true →
  replace (token (token_text T)) (token_value d T)
    (concat_text (map (piece_partly done d) ps))
  = concat_text (map (piece_partly (mark T done) d) ps).
Proof.
  intros HT Hps. unfold replace, token. cbn [global body].
  destruct (token_text_letter T) as [tl HTl]. rewrite HTl.
  induction ps as [|p ps IH]; [done|].
  simpl in Hps. apply andb_prop in Hps as [Hp Hps].
  cbn [map concat_text]. destruct p as [t|s]; cbn [piece_partly].
  - unfold mark at 1. destruct (decide (t = T)) as [->|Hne].
    + rewrite HT, bool_decide_eq_true_2 by done. cbn [orb].
      rewrite HTl, replace_all_hit, IH by done. done.
    + rewrite bool_decide_eq_false_2, orb_false_r by done.
      rewrite replace_all_miss, IH; [done|done|].
      destruct (done t).
      * apply free_of_digits; [apply token_letter_not_digit|apply token_value_digits].
      * by apply free_of_other_token.
  - rewrite replace_all_miss, IH; [done|done|]. by apply free_of_letter_free.
Qed.

(** The six passes, one after the other. *)
Lemma formatTimestamp_by_pieces ps d :
  forallb piece_ok ps = true →
  formatTimestamp (concat_text (map piece_text ps)) d
  = concat_text (map (piece_value d) ps).
Proof.
  intros Hps. unfold formatTimestamp.
  change (map piece_text ps) with (map (piece_partly (λ _, false) d) ps).
  change (String_of_nat (getFullYear d)) with (token_value d YYYY).
  change (pad (getMonth d + 1)) with (token_value d MM).
  change (pad (getDate d)) with (token_value d DD).
  change (pad (getHours d)) with (token_value d HH).
  change (pad (getMinutes d)) with (token_value d mm).
  change (pad (getSeconds d)) with (token_value d ss).
  rewrite (replace_token_pass d YYYY) by done.
  rewrite (replace_token_pass d MM) by done.
  rewrite (replace_token_pass d DD) by done.
  rewrite (replace_token_pass d HH) by done.
  rewrite (replace_token_pass d mm) by done.
  rewrite (replace_token_pass d ss) by done.
  f_equal. apply map_ext. intros [t|s]; [|done]. by destruct t.
Qed.

(** X1: a format made of tokens and of texts without the letters Y, M, D, H, m
    and s is rendered piece by piece: every token gives its value, every
    text stays, and the values that were written are never replaced
    again. *)
Theorem formatTimestamp_pieces (ps : list piece) (d : Date) :
  forallb piece_ok ps = true →
  formatTimestamp (concat_text (map piece_text ps)) d
  = concat_text (map (piece_value d) ps).
Proof. apply formatTimestamp_by_pieces. Qed.

Lemma formatTimestamp_pieces_witness :
  formatTimestamp "YYYY-MM-DD HH:mm" (mkDate 2024 0 5 9 7 3) = "2024-01-05 09:07".
Proof.
  apply (formatTimestamp_pieces
           [Tok YYYY; Txt "-"; Tok MM; Txt "-"; Tok DD; Txt " "; Tok HH; Txt ":"; Tok mm]
           (mkDate 2024 0 5 9 7 3)).
  reflexivity.
Defined.

(** The default format, at any time. *)
Lemma formatTimestamp_default d :
  formatTimestamp "YYYY-MM-DD HH:mm" d
  = String_of_nat (getFullYear d) +:+ "-" +:+ pad (getMonth d + 1) +:+ "-"
    +:+ pad (getDate d) +:+ " " +:+ pad (getHours d) +:+ ":" +:+ pad (getMinutes d).
Proof.
  etrans;
    [exact (formatTimestamp_by_pieces
              [Tok YYYY; Txt "-"; Tok MM; Txt "-"; Tok DD; Txt " "; Tok HH; Txt ":";
               Tok mm] d eq_refl)|].
  cbn [map concat_text piece_value token_value]. by rewrite str_app_nil_r.
Qed.

(** [pad] never cuts a number: it writes the decimal digits of [n], with
    one zero in front when [n] has one digit. *)
Lemma pad_two_digits n :
  pad n = (if (String.length (String_of_nat n) <? 2)%nat then "0" else "")
          +:+ String_of_nat n.
Proof.
  unfold pad, padStart0. pose proof (String_of_nat_nonempty n) as H.
  destruct (String.length (String_of_nat n)) as [|[|k]] eqn:E; [lia|done|].
  replace (2 - S (S k)) with 0 by lia. done.
Qed.
End formatter.

(** ** More on the content transformer *)

Section transformer.

Lemma strip_prefix_Some p s r : strip_prefix p s = Some r → s = p +:+ r.
Proof.
  revert s; induction p as [|a p IH]; intros s H.
  - by injection H as ->.
  - destruct s as [|b s]; [done|]. simpl in H.
    destruct (Ascii.eqb_spec a b) as [->|]; [|done].
    rewrite str_app_cons. f_equal. by apply IH.
Qed.

Lemma after_closing_suffix t rest :
  after_closing t = Some rest →
  ∃ u, t = u +:+ rest ∧ 4 ≤ String.length u.
Proof.
  induction t as [|c t IH]; cbn [after_closing].
  - destruct (strip_prefix (nl +:+ "---") "") eqn:E; [|done].
    by apply strip_prefix_Some in E.
  - destruct (strip_prefix (nl +:+ "---") (String c t)) as [tail|] eqn:E.
    + intros [= <-]. apply strip_prefix_Some in E. rewrite E.
      unfold strip_nl. destruct (strip_prefix nl tail) as [tail'|] eqn:E'.
      * apply strip_prefix_Some in E'. subst tail.
        exists ((nl +:+ "---") +:+ nl). split; [by rewrite !str_app_assoc|].
        vm_compute. lia.
      * exists (nl +:+ "---"). split; [done|]. vm_compute. lia.
    + intros H. destruct (IH H) as (u & -> & Hu).
      exists (String c u). split; [done|]. simpl. lia.
Qed.

Lemma sanitized_content now raw opts :
  addTimestampHeader opts = false →
  ∃ front,
    raw = front +:+ content (transformContent now raw opts) ∧
    (transformed (transformContent now raw opts) = false → front = "") ∧
    (transformed (transformContent now raw opts) = true →
     8 ≤ String.length front ∧ ∃ more, front = "---" +:+ nl +:+ more).
Proof.
  intros Hh. destruct opts as [san hdr fmt ext]. simpl in Hh. subst hdr.
  destruct san.
  - rewrite sanitize_spec.
    destruct (strip_prefix ("---" +:+ nl) raw) as [t|] eqn:E;
      [|by exists ""].
    apply strip_prefix_Some in E.
    destruct (after_closing t) as [rest|] eqn:E'; [|by exists ""].
    destruct (after_closing_suffix _ _ E') as (u & -> & Hu).
    exists (("---" +:+ nl) +:+ u). cbn [content transformed].
    split; [by rewrite E, !str_app_assoc|]. split; [done|]. intros _. split.
    + rewrite str_length_app. change (String.length ("---" +:+ nl)) with 4. lia.
    + exists u. by rewrite !str_app_assoc.
  - exists "". by cbn.
Qed.

(** X2: without the header, [transformContent] returns the content itself or
    the content without a piece at its front: the piece starts with three
    dashes and a line break, it has eight characters or more, and
    [transformed] tells which of the two happened. *)
Theorem sanitize_cuts_a_front_piece (now : Date) (raw : string) (opts : TransformOptions) :
  addTimestampHeader opts = false →
  ∃ front,
    raw = front +:+ content (transformContent now raw opts) ∧
    (transformed (transformContent now raw opts) = false → front = "") ∧
    (transformed (transformContent now raw opts) = true →
     8 ≤ String.length front ∧ ∃ more, front = "---" +:+ nl +:+ more).
Proof. apply sanitized_content. Qed.

Lemma sanitize_cuts_a_front_piece_witness :
  ∃ front,
    "---" +:+ nl +:+ "a: 1" +:+ nl +:+ "---" +:+ nl +:+ "Body" = front +:+ "Body" ∧
    8 ≤ String.length front.
Proof.
  destruct (sanitize_cuts_a_front_piece (mkDate 2024 0 5 9 7 3)
              ("---" +:+ nl +:+ "a: 1" +:+ nl +:+ "---" +:+ nl +:+ "Body")
              (mkTransformOptions true false "" None)) as (front & H1 & _ & H3).
  - reflexivity.
  - exists front. split; [exact H1|]. apply H3. reflexivity.
Defined.

Lemma headed_content now raw opts :
  addTimestampHeader opts = true →
  transformContent now raw opts
  = {| content :=
         header_line now opts
         +:+ content (transformContent now raw (without_header opts));
       transformed := true |}.
Proof.
  intros Hh. destruct opts as [san hdr fmt ext]. simpl in Hh. subst hdr.
  unfold transformContent, header_line, without_header.
  cbn [sanitizeFrontmatter addTimestampHeader timestampFormat].
  destruct (san && test FRONTMATTER_RE raw); by rewrite !str_app_assoc.
Qed.

(** X3: with the header, [transformContent] returns the header line followed
    by what it returns without the header: the frontmatter is cut first and
    the header is put in front of what is left. *)
Theorem header_goes_in_front (now : Date) (raw : string) (opts : TransformOptions) :
  addTimestampHeader opts = true →
  transformContent now raw opts
  = {| content :=
         header_line now opts
         +:+ content (transformContent now raw (without_header opts));
       transformed := true |}.
Proof. apply headed_content. Qed.

Lemma header_goes_in_front_witness :
  transformContent (mkDate 2024 0 5 9 7 3)
    ("---" +:+ nl +:+ "a: 1" +:+ nl +:+ "---" +:+ nl +:+ "Body")
    (mkTransformOptions true true "" None)
  = {| content := "<!-- Pushed: 2024-01-05 09:07 -->" +:+ nl +:+ "Body";
       transformed := true |}.
Proof.
  apply (header_goes_in_front (mkDate 2024 0 5 9 7 3)
           ("---" +:+ nl +:+ "a: 1" +:+ nl +:+ "---" +:+ nl +:+ "Body")
           (mkTransformOptions true true "" None)).
  reflexivity.
Defined.

Lemma str_neq_by_length a b : String.length a ≠ String.length b → a ≠ b.
Proof. by intros H ->. Qed.

Lemma transformed_spec now raw opts :
  transformed (transformContent now raw opts) = true
  ↔ content (transformContent now raw opts) ≠ raw.
Proof.
  destruct (addTimestampHeader opts) eqn:Hh.
  - rewrite headed_content by done. cbn [content transformed].
    split; [intros _|done].
    destruct (sanitized_content now raw (without_header opts) eq_refl)
      as (front & Hraw & H1 & H2).
    set (c0 := content (transformContent now raw (without_header opts))) in *.
    destruct (transformed (transformContent now raw (without_header opts))).
    + destruct H2 as [_ [more ->]]; [done|]. rewrite Hraw.
      unfold header_line. intros E. rewrite !str_app_assoc in E. discriminate E.
    + rewrite H1 in Hraw by done. apply str_neq_by_length.
      rewrite Hraw. change ("" +:+ c0) with c0. rewrite str_length_app.
      unfold header_line. rewrite str_length_app. simpl. lia.
  - destruct (sanitized_content now raw opts Hh) as (front & Hraw & H1 & H2).
    destruct (transformed (transformContent now raw opts)).
    + split; [intros _|done]. destruct H2 as [Hlen _]; [done|].
      apply str_neq_by_length. rewrite Hraw at 2. rewrite str_length_app. lia.
    + split; [done|]. intros H. rewrite H1 in Hraw by done. by destruct H.
Qed.

(** X4: [transformed] is true exactly when the content that comes back is not
    the content that went in. *)
Theorem transformed_iff_changed (now : Date) (raw : string) (opts : TransformOptions) :
  transformed (transformContent now raw opts) = true
  ↔ content (transformContent now raw opts) ≠ raw.
Proof. apply transformed_spec. Qed.

End transformer.

(** ** More on a single push *)

Section push_more.
Implicit Types d st : disk.
Implicit Types w : world.

Lemma lookup_written_tmp final c d : written final c d !! (final +:+ ".tmp") = None.
Proof.
  unfold written. rewrite lookup_insert_ne by (intros E; by apply (tmp_neq final)).
  apply lookup_delete_eq.
Qed.

Lemma lookup_written_other final c d q :
  q ≠ final → q ≠ final +:+ ".tmp" → written final c d !! q = d !! q.
Proof.
  intros H1 H2. unfold written.
  by rewrite lookup_insert_ne, lookup_delete_ne, lookup_insert_ne.
Qed.

(** X5: the result of a push describes what was written: the file at
    [finalPath] holds the transformed content of the vault file, [bytes] is
    its length, [source] is the path of the vault file, and [transformed]
    tells whether the file differs from the vault file. *)
Theorem push_result_describes_the_file (fuel : nat) (f : TFile) (ctx : PushContext)
    (tr : TransformOptions) (os : behaviour) (w w' : world) (r : PushResult) :
  pushSingleFile fuel f ctx tr os w = (Ok r, w') →
  ∃ raw written_text,
    vault_of w !! file_path f = Some raw ∧
    content_at (disk_of w') (finalPath r) = Some written_text ∧
    written_text = content (transformContent (clock os) raw tr) ∧
    bytes r = String.length written_text ∧
    source r = file_path f ∧
    (transformed_flag r = true ↔ written_text ≠ raw).
Proof.
  intros [(e & ? & _)|[(? & _)|(raw & w1 & final & u & Hraw & _ & _ & Hw & Hu)]]%pushSingleFile_spec;
    try done.
  apply writeThroughTmp_spec in Hw as (_ & _ & Hw).
  destruct u as [[]|e|]; [|done|done]. injection Hu as ->. simpl.
  destruct Hw as [Hd _].
  exists raw, (content (transformContent (clock os) raw tr)).
  split_and!; try done.
  - rewrite Hd. apply content_at_written.
  - apply transformed_spec.
Qed.

Lemma push_result_describes_the_file_witness :
  ∃ raw written_text,
    vault_of small_world !! "a.md" = Some raw ∧
    content_at
      (disk_of (pushSingleFile 0 (mkTFile "a.md") (mkPushContext true true "/base")
                  (mkTransformOptions false false "" None) calm small_world).2)
      "/base/a.md" = Some written_text ∧
    3 = String.length written_text.
Proof.
  destruct (push_result_describes_the_file 0 (mkTFile "a.md")
              (mkPushContext true true "/base")
              (mkTransformOptions false false "" None) calm small_world
              (pushSingleFile 0 (mkTFile "a.md") (mkPushContext true true "/base")
                 (mkTransformOptions false false "" None) calm small_world).2
              {| source := "a.md"; finalPath := "/base/a.md"; bytes := 3;
                 transformed_flag := false |})
    as (raw & txt & H1 & H2 & _ & H4 & _).
  - vm_compute. reflexivity.
  - exists raw, txt. split; [exact H1|]. split; [exact H2|exact H4].
Defined.

(** X6: a push that returns leaves nothing at the temporary path, whatever was
    there before; apart from the final path and the temporary path no file
    of the disk has changed, and no notice was shown. *)
Theorem push_touches_two_paths (fuel : nat) (f : TFile) (ctx : PushContext)
    (tr : TransformOptions) (os : behaviour) (w w' : world) (r : PushResult) :
  pushSingleFile fuel f ctx tr os w = (Ok r, w') →
  disk_of w' !! (finalPath r +:+ ".tmp") = None ∧
  (∀ q, q ≠ finalPath r → q ≠ finalPath r +:+ ".tmp" →
        content_at (disk_of w') q = content_at (disk_of w) q) ∧
  notices w' = notices w.
Proof.
  intros [(e & ? & _)|[(? & _)|(raw & w1 & final & u & Hraw & Hthr & _ & Hw & Hu)]]%pushSingleFile_spec;
    try done.
  apply writeThroughTmp_spec in Hw as (Hv & Hn & Hw).
  destruct u as [[]|e|]; [|done|done]. injection Hu as ->. simpl.
  destruct Hw as [Hd _]. destruct Hthr as (Hv1 & Hn1 & Hdirs & _).
  split_and!.
  - rewrite Hd. apply lookup_written_tmp.
  - intros q H1 H2. unfold content_at at 1. rewrite Hd, lookup_written_other by done.
    apply (content_at_only_new_dirs _ _ _ _ Hdirs).
  - congruence.
Qed.

(** A world in which a file of its own sits at the temporary path of
    another file. *)
Lemma push_touches_two_paths_witness :
  disk_of (pushSingleFile 0 (mkTFile "a.md") (mkPushContext true false "/base")
             (mkTransformOptions false false "" None) calm
             (mkWorld {[ "/base/a.md.tmp" := File "precious" ]}
                      {[ "a.md" := "new" ]} [] [])).2
  !! "/base/a.md.tmp" = None.
Proof.
  apply (push_touches_two_paths 0 (mkTFile "a.md") (mkPushContext true false "/base")
           (mkTransformOptions false false "" None) calm
           (mkWorld {[ "/base/a.md.tmp" := File "precious" ]}
                    {[ "a.md" := "new" ]} [] [])
           _ {| source := "a.md"; finalPath := "/base/a.md"; bytes := 3;
                transformed_flag := false |}).
  vm_compute. reflexivity.
Defined.

(** X7: without overwriting, a push that returns wrote to a path at which
    nothing was before the push, no file and no directory; and every file
    that was on the disk before the push still has its content after it,
    except a file at the temporary path, which is lost. *)
Theorem push_without_overwrite_takes_a_free_path (fuel : nat) (f : TFile)
    (ctx : PushContext) (tr : TransformOptions) (os : behaviour) (w w' : world)
    (r : PushResult) :
  overwriteExisting ctx = false →
  pushSingleFile fuel f ctx tr os w = (Ok r, w') →
  disk_of w !! finalPath r = None ∧
  (∀ q c, q ≠ finalPath r +:+ ".tmp" →
          content_at (disk_of w) q = Some c →
          content_at (disk_of w') q = Some c) ∧
  (∀ c, content_at (disk_of w) (finalPath r +:+ ".tmp") = Some c →
        content_at (disk_of w') (finalPath r +:+ ".tmp") = None).
Proof.
  intros Hov
    [(e & ? & _)|[(? & _)|(raw & w1 & final & u & Hraw & Hthr & Hres & Hw & Hu)]]%pushSingleFile_spec;
    try done.
  apply writeThroughTmp_spec in Hw as (_ & _ & Hw).
  destruct u as [[]|e|]; [|done|done]. injection Hu as ->. simpl.
  destruct (resolved_not_taken _ _ _ _ Hov Hres) as [Hfree _].
  apply exists_in_false in Hfree.
  destruct Hthr as (_ & _ & Hdirs & _). destruct Hw as [Hd _].
  assert (disk_of w !! final = None) as Hnone.
  { destruct (Hdirs final) as [E|(_ & E & _)]; [by rewrite <- E|done]. }
  split_and!; [done| |].
  - intros q c Hq Hc. destruct (decide (q = final)) as [->|Hne].
    { unfold content_at in Hc. by rewrite Hnone in Hc. }
    rewrite <- Hc. unfold content_at at 1.
    rewrite Hd, lookup_written_other by done.
    apply (content_at_only_new_dirs _ _ _ _ Hdirs).
  - intros c _. unfold content_at. by rewrite Hd, lookup_written_tmp.
Qed.

Lemma push_without_overwrite_takes_a_free_path_witness :
  disk_of taken_world !! "/base/n/a-1.md" = None ∧
  content_at (disk_of (push_again taken_world)) "/base/n/a.md" = Some "old".
Proof.
  destruct (push_without_overwrite_takes_a_free_path 5 (mkTFile "n/a.md")
              (mkPushContext true false "/base")
              (mkTransformOptions false false "" None) calm taken_world
              (push_again taken_world) (pushed_to "/base/n/a-1.md"))
    as (H1 & H2 & _).
  - reflexivity.
  - vm_compute. reflexivity.
  - split; [exact H1|]. apply H2; [discriminate|reflexivity].
Defined.
End push_more.

Section write_failures.
Implicit Types d st : disk.
Implicit Types w : world.

Lemma onWriteError_cleans os tmp final err w o w' :
  unlink_fault os = None →
  onWriteError os tmp final err w = (o, w') →
  content_at (disk_of w') tmp = None.
Proof.
  intros Hu. unfold onWriteError, bind, existsSync, try_catch, throw, ret, unlink.
  rewrite Hu. unfold exists_in, content_at.
  destruct (disk_of w !! tmp) as [[c|]|] eqn:E; simpl; rewrite ?E; simpl.
  - intros [= <- <-]. simpl. by rewrite lookup_delete_eq.
  - intros [= <- <-]. by rewrite E.
  - intros [= <- <-]. by rewrite E.
Qed.

(** X8: when the write or the rename fails and the removal of the temporary
    file does not fail, no file is left at the temporary path. *)
Theorem failed_write_leaves_no_temporary_file (os : behaviour)
    (final text : string) (w w' : world) (e : exn) :
  unlink_fault os = None →
  writeThroughTmp os final text w = (Throw e, w') →
  content_at (disk_of w') (final +:+ ".tmp") = None.
Proof.
  intros Hu. unfold writeThroughTmp, try_catch, bind.
  destruct (writeFile _ _ _ w) as [o1 w1] eqn:HW.
  pose proof (writeFile_spec _ _ _ _ _ _ HW) as [_ HW2].
  destruct o1 as [[]|e1|]; [| |done].
  - destruct (rename _ _ _ w1) as [o2 w2] eqn:HR.
    pose proof (rename_spec _ _ _ _ _ _ HR) as HR2.
    destruct o2 as [[]|e2|]; [done| |done].
    intros H. by eapply onWriteError_cleans.
  - intros H. by eapply onWriteError_cleans.
Qed.

Lemma failed_write_leaves_no_temporary_file_witness :
  content_at
    (disk_of (writeThroughTmp failing_rename "/base/a.md" "new" small_world).2)
    "/base/a.md.tmp" = None.
Proof.
  apply (failed_write_leaves_no_temporary_file failing_rename "/base/a.md" "new"
           small_world _
           (PushError "Permission denied writing destination: /base/a.md"
                      (Some "EACCES"))).
  - reflexivity.
  - vm_compute. reflexivity.
Defined.


End write_failures.

(** ** The batch, in parts *)

Section batch_more.
Implicit Types w : world.

Lemma pushLoop_ext fuel ctx tr : ∀ files os os' succ fail w,
  (∀ k, os k = os' k) →
  pushLoop fuel files ctx tr os succ fail w
  = pushLoop fuel files ctx tr os' succ fail w.
Proof.
  induction files as [|f files IH]; intros os os' succ fail w H; [done|].
  cbn [pushLoop]. unfold bind, try_catch, ret. rewrite <- (H 0).
  destruct (pushSingleFile fuel f ctx tr (os 0) w) as [[r|e|] w1]; [| |done];
    apply IH; intros k; apply H.
Qed.

(** The accumulators of the loop are only ever extended at their ends. *)
Lemma pushLoop_acc fuel ctx tr : ∀ files os s0 f0 succ fail w batch w',
  pushLoop fuel files ctx tr os s0 f0 w = (Ok batch, w') →
  pushLoop fuel files ctx tr os (succ ++ s0) (fail ++ f0) w
  = (Ok {| successes := succ ++ successes batch;
           failures := fail ++ failures batch |}, w').
Proof.
  induction files as [|f files IH]; intros os s0 f0 succ fail w batch w'.
  - by intros [= <- <-].
  - cbn [pushLoop]. unfold bind, try_catch, ret.
    destruct (pushSingleFile fuel f ctx tr (os 0) w) as [[r|e|] w1]; [| |done];
      intros H; rewrite <- (assoc (++)); by apply IH.
Qed.

Lemma pushLoop_app fuel ctx tr : ∀ xs ys os s0 f0 w b1 w1 o w2,
  pushLoop fuel xs ctx tr os s0 f0 w = (Ok b1, w1) →
  pushLoop fuel ys ctx tr (later (length xs) os) (successes b1) (failures b1) w1
    = (o, w2) →
  pushLoop fuel (xs ++ ys) ctx tr os s0 f0 w = (o, w2).
Proof.
  induction xs as [|f xs IH]; intros ys os s0 f0 w b1 w1 o w2.
  - intros [= <- <-] H. simpl. rewrite <- H. by apply pushLoop_ext.
  - cbn [pushLoop app length]. unfold bind, try_catch, ret.
    destruct (pushSingleFile fuel f ctx tr (os 0) w) as [[r|e|] w0]; [| |done];
      intros H1 H2; by apply (IH _ _ _ _ _ _ _ _ _ H1).
Qed.

(** X12: a batch over [xs ++ ys] is the batch over [xs] followed by the batch
    over [ys] in the world that the first one leaves: the successes and the
    failures of the two are put one after the other. *)
Theorem pushMultiple_in_two_parts (fuel : nat) (xs ys : list TFile)
    (ctx : PushContext) (tr : TransformOptions) (os : nat → behaviour)
    (w w1 w2 : world) (b1 b2 : PushBatchResult) :
  pushMultiple fuel xs ctx tr os w = (Ok b1, w1) →
  pushMultiple fuel ys ctx tr (later (length xs) os) w1 = (Ok b2, w2) →
  pushMultiple fuel (xs ++ ys) ctx tr os w
  = (Ok {| successes := successes b1 ++ successes b2;
           failures := failures b1 ++ failures b2 |}, w2).
Proof.
  unfold pushMultiple. intros H1 H2.
  apply (pushLoop_app _ _ _ _ _ _ _ _ _ _ _ _ _ H1).
  pose proof (pushLoop_acc _ _ _ _ _ _ _ (successes b1) (failures b1) _ _ _ H2) as H.
  by rewrite !app_nil_r in H.
Qed.

Lemma pushMultiple_in_two_parts_witness :
  pushMultiple 5 ([mkTFile "a.md"] ++ [mkTFile "b.md"])
    (mkPushContext false true "/base") (mkTransformOptions false false "" None)
    (λ _, calm) small_world
  = (Ok {| successes :=
             [{| source := "a.md"; finalPath := "/base/a.md"; bytes := 3;
                 transformed_flag := false |}] ++ [];
           failures :=
             [] ++ [{| file := "b.md"; error := "File not found"; code := None |}] |},
     (pushMultiple 5 [mkTFile "a.md"]
        (mkPushContext false true "/base") (mkTransformOptions false false "" None)
        (λ _, calm) small_world).2).
Proof.
  apply (pushMultiple_in_two_parts 5 [mkTFile "a.md"] [mkTFile "b.md"]
           (mkPushContext false true "/base") (mkTransformOptions false false "" None)
           (λ _, calm) small_world
           (pushMultiple 5 [mkTFile "a.md"]
              (mkPushContext false true "/base")
              (mkTransformOptions false false "" None) (λ _, calm) small_world).2
           (pushMultiple 5 [mkTFile "a.md"]
              (mkPushContext false true "/base")
              (mkTransformOptions false false "" None) (λ _, calm) small_world).2
           {| successes :=
                [{| source := "a.md"; finalPath := "/base/a.md"; bytes := 3;
                    transformed_flag := false |}];
              failures := [] |}
           {| successes := [];
              failures := [{| file := "b.md"; error := "File not found";
                              code := None |}] |}).
  - vm_compute. reflexivity.
  - vm_compute. reflexivity.
Defined.

(** A push shows no notice. *)
Lemma pushSingleFile_frame fuel f ctx tr os w o w' :
  pushSingleFile fuel f ctx tr os w = (o, w') → notices w' = notices w.
Proof.
  intros [(e & _ & _ & _ & Hn & _)|[(_ & _ & Hn & _)
         |(raw & w1 & final & u & _ & (_ & Hn & _) & _ & HW & _)]]%pushSingleFile_spec;
    [done|done|].
  apply writeThroughTmp_spec in HW as (_ & Hn' & _).
  by rewrite Hn'.
Qed.

Lemma pushLoop_frame fuel ctx tr : ∀ files os succ fail w,
  notices (pushLoop fuel files ctx tr os succ fail w).2 = notices w.
Proof.
  induction files as [|f files IH]; intros os succ fail w; [done|].
  cbn [pushLoop]. unfold bind, try_catch, ret.
  destruct (pushSingleFile fuel f ctx tr (os 0) w) as [o w1] eqn:HP.
  apply pushSingleFile_frame in HP as Hn.
  destruct o as [r|e|]; [| |done]; rewrite <- Hn; apply IH.
Qed.

End batch_more.

(** ** The commands of the plugin *)

Section plugin_commands.
Implicit Types w : world.

(** X15: [pushFiles] counts what [pushMultiple] returns: with enough fuel the
    summary has the number of files as its total; without a target base
    nothing is pushed and the world is left as it is; with one, every file
    is counted once, as a success or as a failure. *)
Theorem pushFiles_counts_every_file (this : ObsidianPushPlugin)
    (files : list TFile) (os : nat → behaviour) (w : world) :
  ∃ fuel0 summary w',
    (∀ fuel, fuel0 ≤ fuel → pushFiles fuel this files os w = (Ok summary, w')) ∧
    total summary = length files ∧
    match buildPushContext this with
    | None => count_successes summary = 0 ∧ count_failures summary = 0 ∧ w' = w
    | Some _ => count_successes summary + count_failures summary = length files
    end.
Proof.
  unfold pushFiles. destruct (buildPushContext this) as [ctx|].
  - destruct (pushLoop_terminates ctx (buildTransformOptions this) files os [] [] w)
      as (fuel0 & batch & w' & H).
    pose proof (pushLoop_sound _ _ _ _ _ _ _ _ _ _ (H fuel0 (le_n _)))
      as (flags & Hl & Hs & Hf). simpl in Hs, Hf.
    eexists fuel0, _, w'. split.
    + intros fuel Hfuel. unfold bind, pushMultiple. by rewrite (H fuel Hfuel).
    + split; [done|]. simpl.
      rewrite <- (length_map source), <- (length_map file), Hs, Hf.
      rewrite length_pick, length_map; [done|]. by rewrite length_map.
  - by eexists 0, _, w.
Qed.

(** X16: a push of one note from the plugin never throws.  With enough fuel
    it returns; without a target base it shows that no target is
    configured; otherwise it makes the push and shows, after a push that
    returned, the success message when successes are announced and nothing
    when they are not, and after a push that threw, the message of the
    error, or [Push failed] for a thrown value that is no error. *)
Theorem pushFile_never_throws (this : ObsidianPushPlugin) (f : TFile)
    (os : behaviour) (w : world) :
  ∃ fuel0 w',
    (∀ k, pushFile (fuel0 + k) this f os w = (Ok (), w')) ∧
    match buildPushContext this with
    | None =>
        disk_of w' = disk_of w ∧
        notices w' = "Push: targetDir not configured" :: notices w
    | Some ctx =>
        ∃ o w1,
          (∀ k, pushSingleFile (fuel0 + k) f ctx (buildTransformOptions this) os w
                = (o, w1)) ∧
          disk_of w' = disk_of w1 ∧
          match o with
          | Ok r =>
              notices w'
              = if notifyOnSuccess (settings this)
                then renderSuccessMessage this (finalPath r) :: notices w
                else notices w
          | Throw (PushError message _) | Throw (Error message _) =>
              notices w' = message :: notices w
          | Throw Thrown => notices w' = "Push failed" :: notices w
          | Diverge => False
          end
    end.
Proof.
  unfold pushFile. destruct (buildPushContext this) as [ctx|].
  - destruct (pushSingleFile_terminates f ctx (buildTransformOptions this) os w)
      as (fuel0 & o & w1 & Ho & H).
    pose proof (pushSingleFile_frame _ _ _ _ _ _ _ _ (H fuel0 (le_n _))) as Hn.
    assert (∀ k, pushSingleFile (fuel0 + k) f ctx (buildTransformOptions this) os w
                 = (o, w1)) as H' by (intros k; apply H; lia).
    destruct o as [r|e|]; [| |done].
    + destruct (notifyOnSuccess (settings this)) eqn:En.
      * eexists fuel0, _. split.
        { intros k. unfold try_catch, bind. rewrite (H' k). reflexivity. }
        eexists _, w1. split; [exact H'|]. simpl. by rewrite Hn.
      * eexists fuel0, _. split.
        { intros k. unfold try_catch, bind. rewrite (H' k). reflexivity. }
        eexists _, w1. split; [exact H'|]. simpl. by rewrite Hn.
    + eexists fuel0, _. split.
      { intros k. unfold try_catch, bind. rewrite (H' k). reflexivity. }
      eexists _, w1. split; [exact H'|]. simpl. rewrite Hn. by destruct e.
  - eexists 0, _. split; [done|]. by simpl.
Qed.

(** X17: the two batch commands, with a target directory in the settings and
    a list of files that is not empty.  With enough fuel they return; they
    push the files as [pushMultiple] does and show one notice, which gives
    the number of successes of that batch and the number of files; when no
    target base can be built from the settings, nothing is pushed and the
    notice gives no success. *)
Theorem push_commands_report_the_count (this : ObsidianPushPlugin)
    (files : list TFile) (os : nat → behaviour) (w : world) :
  files ≠ [] →
  truthy (targetDir (settings this)) = true →
  match buildPushContext this with
  | Some ctx =>
      ∃ fuel0 batch w1,
        notices w1 = notices w ∧
        ∀ k,
          pushMultiple (fuel0 + k) files ctx (buildTransformOptions this) os w
          = (Ok batch, w1) ∧
          pushSelectedFiles (fuel0 + k) this files os w
          = Notice ("Pushed " +:+ String_of_nat (length (successes batch)) +:+ " / "
                    +:+ String_of_nat (length files) +:+ " selected") w1 ∧
          pushModifiedToday (fuel0 + k) this files os w
          = Notice ("Pushed " +:+ String_of_nat (length (successes batch)) +:+ " / "
                    +:+ String_of_nat (length files) +:+ " notes") w1
  | None =>
      ∀ fuel,
        pushSelectedFiles fuel this files os w
        = Notice ("Pushed " +:+ String_of_nat 0 +:+ " / "
                  +:+ String_of_nat (length files) +:+ " selected") w ∧
        pushModifiedToday fuel this files os w
        = Notice ("Pushed " +:+ String_of_nat 0 +:+ " / "
                  +:+ String_of_nat (length files) +:+ " notes") w
  end.
Proof.
  intros Hne Ht.
  unfold pushSelectedFiles, pushModifiedToday, ensureTargetConfigured, pushFiles.
  rewrite Ht.
  destruct files as [|f0 files0]; [done|]. set (files := f0 :: files0).
  destruct (buildPushContext this) as [ctx|].
  - destruct (pushLoop_terminates ctx (buildTransformOptions this) files os [] [] w)
      as (fuel0 & batch & w1 & H).
    pose proof (pushLoop_frame fuel0 ctx (buildTransformOptions this) files os [] [] w)
      as Hn.
    rewrite (H fuel0 (le_n _)) in Hn.
    exists fuel0, batch, w1. split; [done|]. intros k.
    assert (pushMultiple (fuel0 + k) files ctx (buildTransformOptions this) os w
            = (Ok batch, w1)) as Hk by (apply H; lia).
    split; [done|]. unfold bind, ret. cbn [negb]. cbv beta iota. by rewrite Hk.
  - intros fuel. by unfold bind, ret.
Qed.

Lemma push_commands_report_the_count_witness :
  ∃ fuel0 batch w1,
    notices w1 = notices small_world ∧
    ∀ k,
      pushMultiple (fuel0 + k) [mkTFile "a.md"; mkTFile "b.md"]
        (mkPushContext true true "/base") (buildTransformOptions pushing_plugin)
        (λ _, calm) small_world
      = (Ok batch, w1) ∧
      pushSelectedFiles (fuel0 + k) pushing_plugin [mkTFile "a.md"; mkTFile "b.md"]
        (λ _, calm) small_world
      = Notice ("Pushed " +:+ String_of_nat (length (successes batch)) +:+ " / "
                +:+ String_of_nat 2 +:+ " selected") w1 ∧
      pushModifiedToday (fuel0 + k) pushing_plugin [mkTFile "a.md"; mkTFile "b.md"]
        (λ _, calm) small_world
      = Notice ("Pushed " +:+ String_of_nat (length (successes batch)) +:+ " / "
                +:+ String_of_nat 2 +:+ " notes") w1.
Proof.
  apply (push_commands_report_the_count pushing_plugin
           [mkTFile "a.md"; mkTFile "b.md"] (λ _, calm) small_world).
  - discriminate.
  - reflexivity.
Defined.

End plugin_commands.

(** ** Pulls under any behaviour of the host *)

Section pull_more.
Implicit Types w : world.

(** The block that reads the file at [p] and puts its content into the
    note. *)
Lemma pull_block os f p msg w :
  ∃ o w',
    (content ← readFile (readFile_fault os) p;
     applyPulledContent os f content;;
     Notice msg) w = (o, w') ∧
    match o with
    | Ok _ =>
        notices w' = msg :: notices w ∧
        ∃ c, content_at (disk_of w) p = Some c ∧
             vault_of w' = <[file_path f := c]> (vault_of w)
    | Throw _ => vault_of w' = vault_of w ∧ notices w' = notices w
    | Diverge => False
    end.
Proof.
  unfold bind, readFile, applyPulledContent, vault_modify, Notice, content_at.
  destruct (readFile_fault os) as [e|]; [by eexists _, _|].
  destruct (disk_of w !! p) as [[c|]|]; [|by eexists _, _..].
  destruct (modify_fault os) as [e|]; [by eexists _, _|].
  eexists _, _. split; [reflexivity|]. simpl. split; [done|]. by exists c.
Qed.

(** What a pull does, whatever the host does. *)
Lemma pullFile_spec this f os w :
  ∃ w' msg,
    pullFile this f os w = (Ok (), w') ∧
    notices w' = msg :: notices w ∧
    (vault_of w' = vault_of w ∨
     ∃ ctx p c,
       buildPushContext this = Some ctx ∧
       (p = computeTargetFilePath f ctx (buildTransformOptions this) ∨
        p = originalPath f ctx) ∧
       content_at (disk_of w) p = Some c ∧
       vault_of w' = <[file_path f := c]> (vault_of w)).
Proof.
  unfold pullFile. destruct (buildPushContext this) as [ctx|] eqn:Ectx.
  2:{ eexists _, _. split; [reflexivity|]. simpl. split_and!; [done..|by left]. }
  assert (∀ p msg,
    (p = computeTargetFilePath f ctx (buildTransformOptions this) ∨
     p = originalPath f ctx) →
    ∃ w' msg',
      match (content ← readFile (readFile_fault os) p;
             applyPulledContent os f content;;
             Notice msg) w with
      | (Throw e, w1) => handlePullError e w1
      | r => r
      end = (Ok (), w') ∧
      notices w' = msg' :: notices w ∧
      (vault_of w' = vault_of w ∨
       ∃ ctx' p c,
         Some ctx = Some ctx' ∧
         (p = computeTargetFilePath f ctx' (buildTransformOptions this) ∨
          p = originalPath f ctx') ∧
         content_at (disk_of w) p = Some c ∧
         vault_of w' = <[file_path f := c]> (vault_of w))) as Hblock.
  { intros p msg Hp.
    destruct (pull_block os f p msg w) as (o & w' & -> & Ho).
    destruct o as [[]|e|]; [| |done].
    - destruct Ho as (Hn & c & Hc & Hv). exists w', msg.
      split_and!; [done..|]. right. by exists ctx, p, c.
    - destruct Ho as [Hv Hn]. eexists _, _. split; [reflexivity|]. simpl.
      rewrite Hn. split_and!; [done|by left]. }
  unfold try_catch. unfold bind at 1. unfold existsSync at 1.
  destruct (exists_in (disk_of w) _); cbn [negb].
  { apply Hblock. by left. }
  destruct (truthy_opt _).
  2:{ eexists _, _. split; [reflexivity|]. simpl. split_and!; [done..|by left]. }
  unfold bind at 1. unfold existsSync at 1.
  destruct (exists_in (disk_of w) _).
  { apply Hblock. by right. }
  eexists _, _. split; [reflexivity|]. simpl. split_and!; [done..|by left].
Qed.

(** X18: a pull never throws, whatever the host does: it returns and it
    shows exactly one notice. *)
Theorem pullFile_never_throws (this : ObsidianPushPlugin) (f : TFile)
    (os : behaviour) (w : world) :
  ∃ w' msg,
    pullFile this f os w = (Ok (), w') ∧
    notices w' = msg :: notices w.
Proof.
  destruct (pullFile_spec this f os w) as (w' & msg & H & Hn & _).
  by exists w', msg.
Qed.


Lemma pullLoop_spec this : ∀ selected os pulled w,
  ∃ w' msgs,
    pullLoop this selected os pulled w = (Ok (pulled + length selected), w') ∧
    length msgs = length selected ∧
    notices w' = msgs ++ notices w.
Proof.
  induction selected as [|f rest IH]; intros os pulled w.
  - exists w, []. simpl. unfold ret. by rewrite Nat.add_0_r.
  - destruct (pullFile_spec this f (os 0) w) as (w1 & msg & H & Hn & _).
    destruct (IH (λ k, os (S k)) (S pulled) w1) as (w' & msgs & H' & Hl & Hn').
    exists w', (msgs ++ [msg]). cbn [pullLoop]. unfold bind, try_catch, ret.
    rewrite H, H'. split_and!.
    + f_equal. f_equal. simpl. lia.
    + rewrite length_app. simpl. lia.
    + by rewrite Hn', Hn, <- (assoc (++)).
Qed.

(** X20: the command that pulls the selected files counts every file: since a
    pull never throws, the last notice is [Pulled n / n] for the [n]
    selected files, also when no file was found or a call of the host
    failed; one notice per file comes before it. *)
Theorem pull_selected_counts_every_file (this : ObsidianPushPlugin)
    (selected : list TFile) (os : nat → behaviour) (w : world) :
  truthy (targetDir (settings this)) = true →
  selected ≠ [] →
  ∃ w' msgs,
    pullSelectedFiles this selected os w = (Ok (), w') ∧
    length msgs = length selected ∧
    notices w'
    = ("Pulled " +:+ String_of_nat (length selected) +:+ " / "
       +:+ String_of_nat (length selected)) :: msgs ++ notices w.
Proof.
  intros Ht Hne.
  destruct (pullLoop_spec this selected os 0 w) as (w' & msgs & H & Hl & Hn).
  unfold pullSelectedFiles, ensureTargetConfigured. rewrite Ht. simpl.
  unfold bind at 1, ret. simpl.
  destruct selected as [|f rest]; [done|].
  unfold bind. rewrite H. eexists _, msgs. split; [reflexivity|].
  simpl. by rewrite Hn.
Qed.

Lemma pull_selected_counts_every_file_witness :
  ∃ w' msgs,
    pullSelectedFiles pulling_plugin [mkTFile "a.md"; mkTFile "missing.md"]
      (λ _, calm) pull_world = (Ok (), w') ∧
    length msgs = 2 ∧
    notices w' = "Pulled 2 / 2" :: msgs ++ notices pull_world.
Proof.
  apply (pull_selected_counts_every_file pulling_plugin
           [mkTFile "a.md"; mkTFile "missing.md"] (λ _, calm) pull_world).
  - reflexivity.
  - discriminate.
Defined.

End pull_more.

(** ** The notice of a successful push *)

Section success_message.

Lemma split_at_first_here a pat pre post :
  free_of a pre = true →
  split_at_first (String a pat) (pre +:+ String a pat +:+ post) = Some (pre, post).
Proof.
  induction pre as [|c pre IH]; intros H.
  - change ("" +:+ String a pat +:+ post) with (String a pat +:+ post).
    destruct (String a pat +:+ post) eqn:E; unfold split_at_first;
      fold split_at_first; rewrite <- E, strip_prefix_self; done.
  - cbn [free_of] in H. apply andb_prop in H as [Hc H].
    rewrite str_app_cons. cbn [split_at_first strip_prefix].
    destruct (Ascii.eqb a c); [done|]. by rewrite IH.
Qed.

Lemma GetSubstitution_plain matched pre post t :
  free_of dollar t = true → GetSubstitution matched pre post t = t.
Proof.
  induction t as [|c t IH]; [done|]. cbn [free_of GetSubstitution].
  intros [Hc H]%andb_prop. rewrite (Ascii.eqb_sym c dollar).
  destruct (Ascii.eqb dollar c); [done|]. by rewrite IH.
Qed.

Lemma GetSubstitution_app matched pre post a t :
  free_of dollar a = true →
  GetSubstitution matched pre post (a +:+ t) = a +:+ GetSubstitution matched pre post t.
Proof.
  induction a as [|c a IH]; [done|]. cbn [free_of].
  intros [Hc H]%andb_prop. rewrite !(str_app_cons c). cbn [GetSubstitution].
  rewrite (Ascii.eqb_sym c dollar).
  destruct (Ascii.eqb dollar c); [done|]. by rewrite IH.
Qed.

(** X21: the notice of a successful push: in a template with no brace before
    its first [{path}], that [{path}] is replaced by the final path, when
    the final path has no dollar sign; the rest of the template is kept. *)
Theorem renderSuccessMessage_puts_the_path (this : ObsidianPushPlugin)
    (pre post finalPath : string) :
  successNoticeMessage (settings this) = Some (pre +:+ "{path}" +:+ post) →
  free_of "{" pre = true →
  free_of dollar finalPath = true →
  renderSuccessMessage this finalPath = pre +:+ finalPath +:+ post.
Proof.
  intros Hs Hpre Hp. unfold renderSuccessMessage, replace_string. rewrite Hs.
  assert (truthy_opt (Some (pre +:+ "{path}" +:+ post)) = true) as ->.
  { destruct pre; [done|]. by rewrite str_app_cons. }
  simpl default.
  rewrite (split_at_first_here "{" "path}" pre post Hpre).
  by rewrite GetSubstitution_plain.
Qed.

Lemma renderSuccessMessage_puts_the_path_witness :
  renderSuccessMessage
    (mkPlugin (mkSettings "/base" true true true true true "" ""
                 (Some "Pushed to {path}!")) (Some "/base"))
    "/base/a.md"
  = "Pushed to /base/a.md!".
Proof.
  apply (renderSuccessMessage_puts_the_path
           (mkPlugin (mkSettings "/base" true true true true true "" ""
                        (Some "Pushed to {path}!")) (Some "/base"))
           "Pushed to " "!" "/base/a.md"); reflexivity.
Defined.

(** X22: a final path is not always shown as it is: [$&] in it stands for the
    text [{path}] that is replaced. *)
Theorem renderSuccessMessage_reads_dollar_patterns (this : ObsidianPushPlugin)
    (pre post a b : string) :
  successNoticeMessage (settings this) = Some (pre +:+ "{path}" +:+ post) →
  free_of "{" pre = true →
  free_of dollar a = true → free_of dollar b = true →
  renderSuccessMessage this (a +:+ "$&" +:+ b)
  = pre +:+ (a +:+ "{path}" +:+ b) +:+ post.
Proof.
  intros Hs Hpre Ha Hb. unfold renderSuccessMessage, replace_string. rewrite Hs.
  assert (truthy_opt (Some (pre +:+ "{path}" +:+ post)) = true) as ->.
  { destruct pre; [done|]. by rewrite str_app_cons. }
  simpl default.
  rewrite (split_at_first_here "{" "path}" pre post Hpre).
  rewrite (GetSubstitution_app "{path}" pre post a ("$&" +:+ b) Ha).
  change ("$&" +:+ b) with (String dollar (String "&" b)).
  cbn [GetSubstitution]. rewrite Ascii.eqb_refl.
  change (Ascii.eqb "&" dollar) with false. cbn [Ascii.eqb].
  change (Ascii.eqb "&" "&") with true. cbv iota.
  by rewrite GetSubstitution_plain.
Qed.

Lemma renderSuccessMessage_reads_dollar_patterns_witness :
  renderSuccessMessage
    (mkPlugin (mkSettings "/base" true true true true true "" ""
                 (Some "Pushed to {path}!")) (Some "/base"))
    "/base/a$&.md"
  = "Pushed to /base/a{path}.md!".
Proof.
  apply (renderSuccessMessage_reads_dollar_patterns
           (mkPlugin (mkSettings "/base" true true true true true "" ""
                        (Some "Pushed to {path}!")) (Some "/base"))
           "Pushed to " "!" "/base/a" ".md"); reflexivity.
Defined.

End success_message.

(** ** The forced extension *)

Section forced_extension.

Lemma strip_last_extension_app pre old :
  truthy old = true → no_dot old = true →
  strip_last_extension (pre +:+ "." +:+ old) = pre.
Proof.
  intros Ht Hd. induction pre as [|c pre IH].
  - change ("" +:+ "." +:+ old) with (String "." old).
    cbn [strip_last_extension]. by rewrite Ht, Hd.
  - rewrite str_app_cons. cbn [strip_last_extension]. rewrite IH.
    assert (no_dot (pre +:+ "." +:+ old) = false) as ->; [|by rewrite !andb_false_r].
    clear. induction pre as [|x pre IH]; [done|].
    rewrite str_app_cons. simpl. by rewrite IH, andb_false_r.
Qed.

Lemma strip_last_extension_no_dot s :
  no_dot s = true → strip_last_extension s = s.
Proof.
  induction s as [|c s IH]; [done|]. simpl. intros [Hc Hs]%andb_prop.
  apply negb_true_iff in Hc. rewrite Hc. simpl. by rewrite IH.
Qed.

(** X14: with the folders replicated, a forced extension takes the place of
    what follows the last dot of the path of the note, when something
    follows it; it is put at the end of a path that has no dot. *)
Theorem forced_extension_replaces_the_last_one (ctx : PushContext)
    (tr : TransformOptions) (ext pre old : string) :
  replicateFolders ctx = true →
  forceExtension tr = Some ext → truthy ext = true →
  truthy old = true → no_dot old = true →
  destPath (mkTFile (pre +:+ "." +:+ old)) ctx tr
  = path.join (targetBase ctx) (pre +:+ ext) ∧
  destPath (mkTFile old) ctx tr = path.join (targetBase ctx) (old +:+ ext).
Proof.
  intros Hr He Ht Ho Hd.
  rewrite !(destPath_forced _ ctx tr ext He Ht), Hr. simpl file_path.
  by rewrite strip_last_extension_app, strip_last_extension_no_dot.
Qed.

Lemma forced_extension_replaces_the_last_one_witness :
  destPath (mkTFile ("notes/x.tar" +:+ "." +:+ "gz")) (mkPushContext true true "/base")
    (mkTransformOptions false false "" (Some ".txt"))
  = path.join "/base" ("notes/x.tar" +:+ ".txt") ∧
  destPath (mkTFile "gz") (mkPushContext true true "/base")
    (mkTransformOptions false false "" (Some ".txt"))
  = path.join "/base" ("gz" +:+ ".txt").
Proof.
  apply (forced_extension_replaces_the_last_one (mkPushContext true true "/base")
           (mkTransformOptions false false "" (Some ".txt")) ".txt" "notes/x.tar" "gz");
    reflexivity.
Defined.

End forced_extension.

(** ** Failures before the write *)

Section early_failures.
Implicit Types d st : disk.
Implicit Types w : world.

(** X10: a push that throws something else than a [PushError] failed before the
    write: no file of the disk has changed, and the vault is as it was. *)
Theorem early_failure_writes_no_file (fuel : nat) (f : TFile) (ctx : PushContext)
    (tr : TransformOptions) (os : behaviour) (w w' : world) (e : exn) :
  pushSingleFile fuel f ctx tr os w = (Throw e, w') →
  ¬ is_push_error e →
  (∀ q, content_at (disk_of w') q = content_at (disk_of w) q) ∧
  vault_of w' = vault_of w.
Proof.
  intros [(e' & [= <-] & _ & Hv & _ & Hd & _)|[(? & _)
         |(raw & w1 & final & u & _ & _ & _ & HW & Hu)]]%pushSingleFile_spec He;
    [|done|].
  - split; [|done]. intros q. by apply (content_at_only_new_dirs _ _ _ _ Hd).
  - apply writeThroughTmp_spec in HW as (_ & _ & HW).
    destruct u as [[]|e'|]; [done| |done]. injection Hu as <-.
    destruct HW as [[c ->] _]. by destruct He.
Qed.

Lemma early_failure_writes_no_file_witness :
  content_at
    (disk_of (pushSingleFile 0 (mkTFile "b.md") (mkPushContext true true "/base")
                (mkTransformOptions false false "" None) calm small_world).2)
    "/base/a.md"
  = content_at (disk_of small_world) "/base/a.md".
Proof.
  destruct (early_failure_writes_no_file 0 (mkTFile "b.md")
              (mkPushContext true true "/base")
              (mkTransformOptions false false "" None) calm small_world
              (pushSingleFile 0 (mkTFile "b.md") (mkPushContext true true "/base")
                 (mkTransformOptions false false "" None) calm small_world).2
              (Error "File not found" None)) as [H _].
  - vm_compute. reflexivity.
  - simpl. tauto.
  - apply H.
Defined.

(** X11: in the record of a batch, a failure of the creation of the
    directories keeps the message of the error of the host and loses its
    code: only the errors of the write carry one. *)
Theorem mkdir_failure_loses_its_code (fuel : nat) (f : TFile) (ctx : PushContext)
    (tr : TransformOptions) (os : nat → behaviour) (w : world)
    (raw message : string) (code : option string) (k : nat) :
  vault_of w !! file_path f = Some raw →
  vault_read_fault (os 0) = None →
  mkdir_fault (os 0) = Some (k, HostError message code) →
  ∃ w',
    pushMultiple fuel [f] ctx tr os w
    = (Ok {| successes := [];
             failures := [{| file := file_path f; error := message;
                             code := None |}] |}, w').
Proof.
  intros Hraw Hr Hm. unfold pushMultiple. cbn [pushLoop].
  unfold bind at 1, try_catch, bind at 1, pushSingleFile, bind at 1, vault_read.
  rewrite Hr, Hraw. unfold bind at 1, mkdir. rewrite Hm. by eexists.
Qed.

Lemma mkdir_failure_loses_its_code_witness :
  ∃ w',
    pushMultiple 0 [mkTFile "a.md"] (mkPushContext true true "/base")
      (mkTransformOptions false false "" None)
      (λ _, mkBehaviour (mkDate 2024 0 5 9 7 3) None
              (Some (0, HostError "EACCES: permission denied" (Some "EACCES")))
              None None None None None)
      small_world
    = (Ok {| successes := [];
             failures := [{| file := "a.md"; error := "EACCES: permission denied";
                             code := None |}] |}, w').
Proof.
  apply (mkdir_failure_loses_its_code 0 (mkTFile "a.md")
           (mkPushContext true true "/base")
           (mkTransformOptions false false "" None)
           (λ _, mkBehaviour (mkDate 2024 0 5 9 7 3) None
                   (Some (0, HostError "EACCES: permission denied" (Some "EACCES")))
                   None None None None None)
           small_world "new" "EACCES: permission denied" (Some "EACCES") 0);
    reflexivity.
Defined.

End early_failures.
